(** * MemoryCache: a shallow embedding of [src/memory.ts]

    The in-memory cache adapter of the repository ([MemoryCache], with the
    [CacheEntry] record of [cache.interface.ts]) is embedded as pure functions
    over an explicit cache state.

    Modelling conventions:
    - a JavaScript [Map] is an association list in insertion order
      ([JsMap]): [set] on a present key overwrites in place, [set] on a new
      key appends, iteration follows the list;
    - [Date.now()] is an explicit argument [now] of every operation that
      reads the clock;
    - numbers are integers ([Z]); strings are [string], one [ascii] per
      UTF-16 code unit (code units 0..255);
    - a raised [TypeError] and a loop that is still running when the fuel is
      spent are explicit outcomes ([Thrown], [OutOfFuel]). *)

From Stdlib Require Import ZArith List String Ascii Bool Lia DecimalString.
Import ListNotations.

Local Open Scope string_scope.
Local Open Scope Z_scope.

Set Implicit Arguments.
Set Warnings "-register-all".

(** ** JavaScript [Map<string, V>] *)

Module JsMap.
Section Ops.
Variable V : Type.

Definition t := list (string * V).

Fixpoint get (m : t) (k : string) : option V :=
  match m with
  | [] => None
  | (k', v) :: m' => if String.eqb k' k then Some v else get m' k
  end.

Definition has (m : t) (k : string) : bool :=
  match get m k with Some _ => true | None => false end.

(** [Map.prototype.set]: a present key keeps its position. *)
Fixpoint set (m : t) (k : string) (v : V) : t :=
  match m with
  | [] => [(k, v)]
  | (k', v') :: m' =>
      if String.eqb k' k then (k, v) :: m' else (k', v') :: set m' k v
  end.

Definition delete (m : t) (k : string) : t :=
  filter (fun p => negb (String.eqb (fst p) k)) m.

Definition size (m : t) : Z := Z.of_nat (List.length m).

Definition keys (m : t) : list string := map fst m.
End Ops.
End JsMap.

(** ** Values and [JSON.stringify] *)

(** The values a caller can store.  [JCyclic] stands for an object whose
    reference graph reaches itself (such as [o.self = o]); [JNum] carries
    an integer-valued number. *)
Inductive JsValue : Type :=
| JUndefined
| JNull
| JBool (b : bool)
| JNum (n : Z)
| JStr (s : string)
| JArr (items : list JsValue)
| JObj (props : list (string * JsValue))
| JCyclic.

(** What [JSON.stringify(v)] evaluates to: a string, the value [undefined],
    or a raised [TypeError]. *)
Inductive Serialized : Type :=
| SerText (s : string)
| SerUndefined
| SerTypeError.

Definition dquote : ascii := ascii_of_N 34.

Definition hexDigit (n : N) : ascii :=
  if (n <? 10)%N then ascii_of_N (48 + n) else ascii_of_N (87 + n).

(** [QuoteJSONString]: the escapes of one code unit. *)
Definition quoteChar (c : ascii) : string :=
  let n := N_of_ascii c in
  if (n =? 34)%N then String "\" (String dquote "")
  else if (n =? 92)%N then "\\"
  else if (n =? 8)%N then "\b"
  else if (n =? 9)%N then "\t"
  else if (n =? 10)%N then "\n"
  else if (n =? 12)%N then "\f"
  else if (n =? 13)%N then "\r"
  else if (n <? 32)%N then
    "\u00" ++ String (hexDigit (n / 16)) (String (hexDigit (n mod 16)) "")
  else String c "".

Fixpoint quoteBody (s : string) : string :=
  match s with
  | EmptyString => ""
  | String c s' => quoteChar c ++ quoteBody s'
  end.

Definition quoteJSONString (s : string) : string :=
  String dquote (quoteBody s ++ String dquote "").

Definition numberToString (n : Z) : string :=
  NilZero.string_of_int (Z.to_int n).

(** Array elements: [undefined] is written [null]. *)
Fixpoint joinItems (xs : list Serialized) : option (list string) :=
  match xs with
  | [] => Some []
  | SerTypeError :: _ => None
  | SerUndefined :: xs' => option_map (cons "null") (joinItems xs')
  | SerText s :: xs' => option_map (cons s) (joinItems xs')
  end.

(** Object properties: a property whose value is [undefined] is left out. *)
Fixpoint joinProps (ps : list (string * Serialized)) : option (list string) :=
  match ps with
  | [] => Some []
  | (_, SerTypeError) :: _ => None
  | (_, SerUndefined) :: ps' => joinProps ps'
  | (k, SerText s) :: ps' =>
      option_map (cons (quoteJSONString k ++ ":" ++ s)) (joinProps ps')
  end.

Definition bracket (l r : string) (parts : option (list string)) : Serialized :=
  match parts with
  | Some ss => SerText (l ++ String.concat "," ss ++ r)
  | None => SerTypeError
  end.

Fixpoint JSON_stringify (v : JsValue) : Serialized :=
  match v with
  | JUndefined => SerUndefined
  | JNull => SerText "null"
  | JBool true => SerText "true"
  | JBool false => SerText "false"
  | JNum n => SerText (numberToString n)
  | JStr s => SerText (quoteJSONString s)
  | JArr items => bracket "[" "]" (joinItems (map JSON_stringify items))
  | JObj props =>
      bracket "{" "}"
        (joinProps (map (fun p => (fst p, JSON_stringify (snd p))) props))
  | JCyclic => SerTypeError
  end.

(** [s.length] of a JavaScript string. *)
Definition strlen (s : string) : Z := Z.of_nat (String.length s).

(** [JSON.stringify(v).length]: reading [length] of [undefined] raises a
    [TypeError], as the serializer itself does on a cyclic value. *)
Definition stringifyLength (v : JsValue) : option Z :=
  match JSON_stringify v with
  | SerText s => Some (strlen s)
  | SerUndefined => None
  | SerTypeError => None
  end.

(** ** Entries, configuration and cache state *)

(** [CacheEntry] of [cache.interface.ts]. *)
Record CacheEntry : Type := mkEntry {
  value : JsValue;
  createdAt : Z;
  accessedAt : Z;
  expiresAt : option Z;
  ttl : option Z
}.

Inductive EvictionPolicy : Type := lru | fifo.

(** [MemoryCacheConfig]: every field is optional. *)
Record MemoryCacheConfig : Type := mkConfig {
  cfg_maxSize : option Z;
  cfg_maxMemory : option Z;
  cfg_defaultTTL : option Z;
  cfg_cleanupInterval : option Z;
  cfg_evictionPolicy : option EvictionPolicy
}.

Definition emptyConfig : MemoryCacheConfig := mkConfig None None None None None.

(** The private fields of [MemoryCache]; [cleanupTimer] holds the interval
    of the running timer, if any. *)
Record MemoryCache : Type := mkCache {
  store : JsMap.t CacheEntry;
  accessOrder : JsMap.t Z;
  nextAccessTime : Z;
  maxSize : Z;
  maxMemory : Z;
  defaultTTL : Z;
  evictionPolicy : EvictionPolicy;
  hits : Z;
  misses : Z;
  evictions : Z;
  cleanupTimer : option Z
}.

Definition withStore (c : MemoryCache) (s : JsMap.t CacheEntry) : MemoryCache :=
  mkCache s (accessOrder c) (nextAccessTime c) (maxSize c) (maxMemory c)
    (defaultTTL c) (evictionPolicy c) (hits c) (misses c) (evictions c)
    (cleanupTimer c).

Definition withAccessOrder (c : MemoryCache) (a : JsMap.t Z) : MemoryCache :=
  mkCache (store c) a (nextAccessTime c) (maxSize c) (maxMemory c)
    (defaultTTL c) (evictionPolicy c) (hits c) (misses c) (evictions c)
    (cleanupTimer c).

Definition withNextAccessTime (c : MemoryCache) (n : Z) : MemoryCache :=
  mkCache (store c) (accessOrder c) n (maxSize c) (maxMemory c)
    (defaultTTL c) (evictionPolicy c) (hits c) (misses c) (evictions c)
    (cleanupTimer c).

Definition withHits (c : MemoryCache) (n : Z) : MemoryCache :=
  mkCache (store c) (accessOrder c) (nextAccessTime c) (maxSize c)
    (maxMemory c) (defaultTTL c) (evictionPolicy c) n (misses c)
    (evictions c) (cleanupTimer c).

Definition withMisses (c : MemoryCache) (n : Z) : MemoryCache :=
  mkCache (store c) (accessOrder c) (nextAccessTime c) (maxSize c)
    (maxMemory c) (defaultTTL c) (evictionPolicy c) (hits c) n
    (evictions c) (cleanupTimer c).

Definition withEvictions (c : MemoryCache) (n : Z) : MemoryCache :=
  mkCache (store c) (accessOrder c) (nextAccessTime c) (maxSize c)
    (maxMemory c) (defaultTTL c) (evictionPolicy c) (hits c) (misses c)
    n (cleanupTimer c).

Definition withCleanupTimer (c : MemoryCache) (t : option Z) : MemoryCache :=
  mkCache (store c) (accessOrder c) (nextAccessTime c) (maxSize c)
    (maxMemory c) (defaultTTL c) (evictionPolicy c) (hits c) (misses c)
    (evictions c) t.

(** How a call that may raise or loop ends. *)
Inductive Outcome (A : Type) : Type :=
| Returned (a : A)
| Thrown (c : MemoryCache)
| OutOfFuel.

Arguments Returned {A} a.
Arguments Thrown {A} c.
Arguments OutOfFuel {A}.

(** [a ?? b] *)
Definition nullish (A : Type) (a : option A) (b : A) : A :=
  match a with Some x => x | None => b end.

Infix "??" := (@nullish _) (at level 45, left associativity).

(** ** The constructor *)

Definition constructor (config : MemoryCacheConfig) : Outcome MemoryCache :=
  let cleanupInterval := cfg_cleanupInterval config ?? 5 * 60 * 1000 in
  Returned
    {| store := [];
       accessOrder := [];
       nextAccessTime := 1;
       maxSize := cfg_maxSize config ?? 1000;
       maxMemory := cfg_maxMemory config ?? 100 * 1024 * 1024;
       defaultTTL := cfg_defaultTTL config ?? 60 * 60 * 1000;
       evictionPolicy := cfg_evictionPolicy config ?? lru;
       hits := 0;
       misses := 0;
       evictions := 0;
       cleanupTimer := Some cleanupInterval |}.

(** ** Expiry *)

(** [entry.expiresAt && now > entry.expiresAt]: an absent [expiresAt] and
    the number 0 are both falsy. *)
Definition isExpired (entry : CacheEntry) (now : Z) : bool :=
  match expiresAt entry with
  | None => false
  | Some e => negb (e =? 0) && (now >? e)
  end.

(** ** Eviction *)

Section Scan.
Variable V : Type.
Variable rank : V -> Z.

(** One turn of the victim search: [if (rank < oldest) { oldest = rank;
    keyToEvict = key }], with [None] for [Infinity]. *)
Definition scanStep (acc : option Z * string) (kv : string * V)
  : option Z * string :=
  match fst acc with
  | None => (Some (rank (snd kv)), fst kv)
  | Some oldest =>
      if rank (snd kv) <? oldest then (Some (rank (snd kv)), fst kv) else acc
  end.

(** The [for ... of] loop over the map, from [oldest = Infinity] and
    [keyToEvict = ''].  Both branches of [evictOne] are this loop, over
    [accessOrder] with the access time and over [store] with
    [createdAt]. *)
Definition scanOldest (m : JsMap.t V) : option Z * string :=
  fold_left scanStep m (None, "").
End Scan.

Definition keyToEvict (c : MemoryCache) : string :=
  match evictionPolicy c with
  | lru => snd (scanOldest (fun accessTime => accessTime) (accessOrder c))
  | fifo => snd (scanOldest createdAt (store c))
  end.

(** A string is truthy unless it is empty. *)
Definition truthy (s : string) : bool :=
  match s with EmptyString => false | String _ _ => true end.

Definition evictOne (c : MemoryCache) : MemoryCache :=
  if JsMap.size (store c) =? 0 then c
  else
    let k := keyToEvict c in
    if truthy k then
      withEvictions
        (withAccessOrder
           (withStore c (JsMap.delete (store c) k))
           (JsMap.delete (accessOrder c) k))
        (evictions c + 1)
    else c.

(** ** Memory accounting *)

(** The [for ... of] loop of [estimateMemoryUsage]; [None] when
    [JSON.stringify(entry.value).length] raises. *)
Fixpoint sumBytes (m : JsMap.t CacheEntry) (totalBytes : Z) : option Z :=
  match m with
  | [] => Some totalBytes
  | (key, entry) :: m' =>
      match stringifyLength (value entry) with
      | None => None
      | Some len => sumBytes m' (totalBytes + strlen key * 2 + len * 2 + 64)
      end
  end.

Definition estimateMemoryUsage (c : MemoryCache) : option Z :=
  sumBytes (store c) 0.

(** [while (currentMemory > this.maxMemory && this.store.size > 0)
    this.evictOne()]: [currentMemory] is the constant computed before the
    loop. *)
Fixpoint evictWhileOver (fuel : nat) (currentMemory : Z) (c : MemoryCache)
  : Outcome MemoryCache :=
  if (currentMemory >? maxMemory c) && (JsMap.size (store c) >? 0) then
    match fuel with
    | O => OutOfFuel
    | S fuel' => evictWhileOver fuel' currentMemory (evictOne c)
    end
  else Returned c.

Definition checkMemoryLimits (fuel : nat) (c : MemoryCache)
  : Outcome MemoryCache :=
  match estimateMemoryUsage c with
  | None => Thrown c
  | Some currentMemory => evictWhileOver fuel currentMemory c
  end.

(** ** Public operations *)

(** The hit branch of [get]: [accessedAt] is refreshed on the stored entry,
    the order index is refreshed under LRU, and the hit is counted. *)
Definition recordHit (c : MemoryCache) (key : string) (entry : CacheEntry)
  (now : Z) : MemoryCache :=
  let touched :=
    mkEntry (value entry) (createdAt entry) now (expiresAt entry)
      (ttl entry) in
  let c1 := withStore c (JsMap.set (store c) key touched) in
  let c2 :=
    match evictionPolicy c1 with
    | lru =>
        withNextAccessTime
          (withAccessOrder c1
             (JsMap.set (accessOrder c1) key (nextAccessTime c1)))
          (nextAccessTime c1 + 1)
    | fifo => c1
    end in
  withHits c2 (hits c2 + 1).

Definition get (c : MemoryCache) (key : string) (now : Z)
  : JsValue * MemoryCache :=
  match JsMap.get (store c) key with
  | None => (JNull, withMisses c (misses c + 1))
  | Some entry =>
      if isExpired entry now then
        (JNull,
         withMisses
           (withAccessOrder
              (withStore c (JsMap.delete (store c) key))
              (JsMap.delete (accessOrder c) key))
           (misses c + 1))
      else (value entry, recordHit c key entry now)
  end.

Definition newEntry (c : MemoryCache) (v : JsValue) (ttl : option Z) (now : Z)
  : CacheEntry :=
  let effectiveTTL := ttl ?? defaultTTL c in
  {| value := v;
     createdAt := now;
     accessedAt := now;
     expiresAt := if effectiveTTL >? 0 then Some (now + effectiveTTL) else None;
     ttl := Some effectiveTTL |}.

(** The part of [set] before the memory check. *)
Definition insert (c : MemoryCache) (key : string) (v : JsValue)
  (ttl : option Z) (now : Z) : MemoryCache :=
  let entry := newEntry c v ttl now in
  let c1 :=
    if negb (JsMap.has (store c) key) && (JsMap.size (store c) >=? maxSize c)
    then evictOne c else c in
  let c2 := withStore c1 (JsMap.set (store c1) key entry) in
  match evictionPolicy c2 with
  | lru =>
      withNextAccessTime
        (withAccessOrder c2 (JsMap.set (accessOrder c2) key (nextAccessTime c2)))
        (nextAccessTime c2 + 1)
  | fifo => c2
  end.

Definition set (fuel : nat) (c : MemoryCache) (key : string) (v : JsValue)
  (ttl : option Z) (now : Z) : Outcome MemoryCache :=
  checkMemoryLimits fuel (insert c key v ttl now).

(** [get(key) !== null] *)
Definition isNull (v : JsValue) : bool :=
  match v with JNull => true | _ => false end.

Definition has (c : MemoryCache) (key : string) (now : Z)
  : bool * MemoryCache :=
  let r := get c key now in (negb (isNull (fst r)), snd r).

Definition delete (c : MemoryCache) (key : string) : bool * MemoryCache :=
  let existed := JsMap.has (store c) key in
  (existed,
   withAccessOrder
     (withStore c (JsMap.delete (store c) key))
     (JsMap.delete (accessOrder c) key)).

Definition clear (c : MemoryCache) : MemoryCache :=
  mkCache [] [] 1 (maxSize c) (maxMemory c) (defaultTTL c) (evictionPolicy c)
    0 0 0 (cleanupTimer c).

Definition size (c : MemoryCache) : Z := JsMap.size (store c).

(** One turn of the loop of [cleanup], on the running count and cache. *)
Definition cleanupStep (now : Z) (acc : Z * MemoryCache)
  (kv : string * CacheEntry) : Z * MemoryCache :=
  if isExpired (snd kv) now then
    (fst acc + 1,
     withAccessOrder
       (withStore (snd acc) (JsMap.delete (store (snd acc)) (fst kv)))
       (JsMap.delete (accessOrder (snd acc)) (fst kv)))
  else acc.

(** [cleanup] visits the entries that the table holds when it starts; the
    deletions it makes concern the visited key only. *)
Definition cleanup (c : MemoryCache) (now : Z) : Z * MemoryCache :=
  fold_left (cleanupStep now) (store c) (0, c).

Definition destroy (c : MemoryCache) : MemoryCache :=
  clear (withCleanupTimer c None).

(** ** Key patterns: [globToRegex] and the regular expression it builds *)

Definition charIn (c : ascii) (set : string) : bool :=
  existsb (Ascii.eqb c) (list_ascii_of_string set).

(** The class [[.+^${}()|[\]\\]] of the first [replace]. *)
Definition isEscapedByGlob (c : ascii) : bool := charIn c ".+^${}()|[]\".

(** [.replace(/[.+^${}()|[\]\\]/g, '\\$&')] *)
Fixpoint escapeRegexChars (s : string) : string :=
  match s with
  | EmptyString => ""
  | String c s' =>
      if isEscapedByGlob c then String "\" (String c (escapeRegexChars s'))
      else String c (escapeRegexChars s')
  end.

(** [.replace(/\*/g, '.*')] *)
Fixpoint replaceStars (s : string) : string :=
  match s with
  | EmptyString => ""
  | String c s' =>
      if Ascii.eqb c "*" then String "." (String "*" (replaceStars s'))
      else String c (replaceStars s')
  end.

(** [.replace(/\?/g, '.')] *)
Fixpoint replaceQuestionMarks (s : string) : string :=
  match s with
  | EmptyString => ""
  | String c s' =>
      if Ascii.eqb c "?" then String "." (replaceQuestionMarks s')
      else String c (replaceQuestionMarks s')
  end.

(** The source text handed to [new RegExp]. *)
Definition globToRegexSource (pattern : string) : string :=
  let escaped :=
    replaceQuestionMarks (replaceStars (escapeRegexChars pattern)) in
  "^" ++ escaped ++ "$".

(** The fragment of regular expressions that [new RegExp] is given here:
    single code units, [.], a starred atom, and the two anchors. *)
Inductive Atom : Type :=
| ALit (c : ascii)
| ADot.

Inductive Term : Type :=
| TAtom (a : Atom)
| TStar (a : Atom)
| TBol
| TEol.

Definition RegExp := list Term.

(** [SyntaxCharacter] of the pattern grammar. *)
Definition isSyntaxChar (c : ascii) : bool := charIn c "^$\.*+?()[]{}|".

(** The reader of the pattern text.  [pending] is the atom read last, which
    a following [*] would star; [esc] tells that the previous code unit was
    an unescaped backslash.  [None] is a [SyntaxError], or a construct
    outside the fragment (groups, classes, alternation, other quantifiers,
    class escapes). *)
Fixpoint parseFrom (pending : option Atom) (esc : bool) (src : string)
  : option RegExp :=
  let flush (rest : option RegExp) : option RegExp :=
    match pending with
    | Some a => option_map (cons (TAtom a)) rest
    | None => rest
    end in
  match src with
  | EmptyString => if esc then None else flush (Some [])
  | String c src' =>
      if esc then
        if isSyntaxChar c then parseFrom (Some (ALit c)) false src' else None
      else if Ascii.eqb c "\" then flush (parseFrom None true src')
      else if Ascii.eqb c "*" then
        match pending with
        | Some a => option_map (cons (TStar a)) (parseFrom None false src')
        | None => None
        end
      else if Ascii.eqb c "." then flush (parseFrom (Some ADot) false src')
      else if Ascii.eqb c "^" then
        flush (option_map (cons TBol) (parseFrom None false src'))
      else if Ascii.eqb c "$" then
        flush (option_map (cons TEol) (parseFrom None false src'))
      else if isSyntaxChar c then None
      else flush (parseFrom (Some (ALit c)) false src')
  end.

(** [new RegExp(src)], without flags. *)
Definition newRegExp (src : string) : option RegExp := parseFrom None false src.

Definition globToRegex (pattern : string) : option RegExp :=
  newRegExp (globToRegexSource pattern).

(** [LineTerminator]: without the [s] flag, [.] matches none of them. *)
Definition isLineTerminator (c : ascii) : bool :=
  (N_of_ascii c =? 10)%N || (N_of_ascii c =? 13)%N.

Definition atomMatches (a : Atom) (c : ascii) : bool :=
  match a with
  | ALit x => Ascii.eqb x c
  | ADot => negb (isLineTerminator c)
  end.

Definition isEmpty (s : string) : bool :=
  match s with EmptyString => true | String _ _ => false end.

(** Whether the terms match a prefix of [s]; [atStart] tells that [s] is the
    whole input, for [^]. *)
Fixpoint matchHere (r : RegExp) (atStart : bool) (s : string) : bool :=
  match r with
  | [] => true
  | TBol :: r' => atStart && matchHere r' atStart s
  | TEol :: r' => isEmpty s && matchHere r' atStart s
  | TAtom a :: r' =>
      match s with
      | EmptyString => false
      | String c s' => atomMatches a c && matchHere r' false s'
      end
  | TStar a :: r' =>
      (fix star (atStart : bool) (s : string) {struct s} : bool :=
         matchHere r' atStart s
         || match s with
            | EmptyString => false
            | String c s' => atomMatches a c && star false s'
            end) atStart s
  end.

Fixpoint searchFrom (r : RegExp) (atStart : bool) (s : string) : bool :=
  matchHere r atStart s
  || match s with
     | EmptyString => false
     | String _ s' => searchFrom r false s'
     end.

(** [regex.test(key)] *)
Definition test (r : RegExp) (key : string) : bool := searchFrom r true key.

(** [keys(pattern?)]: [!pattern] holds for an absent pattern and for the
    empty string.  [None] when [new RegExp] raises. *)
Definition keys (c : MemoryCache) (pattern : option string)
  : option (list string) :=
  let allKeys := JsMap.keys (store c) in
  match pattern with
  | None => Some allKeys
  | Some p =>
      if truthy p then
        match globToRegex p with
        | Some regex => Some (filter (test regex) allKeys)
        | None => None
        end
      else Some allKeys
  end.

(** ** Sequencing of calls that may raise *)

Definition bind (A B : Type) (o : Outcome A) (f : A -> Outcome B) : Outcome B :=
  match o with
  | Returned a => f a
  | Thrown c => Thrown c
  | OutOfFuel => OutOfFuel
  end.

Notation "x <- e ;; k" := (bind e (fun x => k))
  (at level 61, e at next level, right associativity).

(** ** Invariant of the cache states that the operations produce *)

Record wf (c : MemoryCache) : Prop := mkWf {
  wf_store_nodup : NoDup (JsMap.keys (store c));
  wf_order_nodup : NoDup (JsMap.keys (accessOrder c));
  wf_order_lru :
    evictionPolicy c = lru ->
    forall k, In k (JsMap.keys (accessOrder c)) <-> In k (JsMap.keys (store c));
  wf_order_fifo : evictionPolicy c = fifo -> accessOrder c = []
}.

(** A value whose [JSON.stringify(v).length] evaluates. *)
Definition serializable (v : JsValue) : Prop := stringifyLength v <> None.

(** The estimate that [estimateMemoryUsage] adds for one entry. *)
Definition entryBytes (key : string) (len : Z) : Z :=
  strlen key * 2 + len * 2 + 64.

(** ** Glob matching, as the specification words it

    [*] matches any run of zero or more characters, [?] exactly one
    character, any other character itself; the whole key against the whole
    pattern. *)
Fixpoint globMatch (pattern : string) (key : string) : bool :=
  match pattern with
  | EmptyString => isEmpty key
  | String p pattern' =>
      if Ascii.eqb p "*" then
        (fix run (key : string) : bool :=
           globMatch pattern' key
           || match key with
              | EmptyString => false
              | String _ key' => run key'
              end) key
      else
        match key with
        | EmptyString => false
        | String c key' =>
            (Ascii.eqb p "?" || Ascii.eqb p c) && globMatch pattern' key'
        end
  end.

Definition hasLineTerminator (s : string) : bool :=
  existsb isLineTerminator (list_ascii_of_string s).

(** ** The eviction scenario of the test suite

    [maxSize = 3]; [k1], [k2], [k3] are set, [k1] is read, [k4] is set; the
    five calls read the clock at [t1] ... [t5]. *)
Definition evictionScenario (policy : EvictionPolicy) (fuel : nat)
  (t1 t2 t3 t4 t5 : Z) : Outcome MemoryCache :=
  c0 <- constructor (mkConfig (Some 3) None None None (Some policy)) ;;
  c1 <- set fuel c0 "k1" (JStr "value1") None t1 ;;
  c2 <- set fuel c1 "k2" (JStr "value2") None t2 ;;
  c3 <- set fuel c2 "k3" (JStr "value3") None t3 ;;
  set fuel (snd (get c3 "k1" t4)) "k4" (JStr "value4") None t5.

(** ** Reads and sweeps

    The calls that remove an entry on expiry grounds only. *)
Inductive Touch : Type :=
| TouchGet (key : string) (now : Z)
| TouchHas (key : string) (now : Z)
| TouchCleanup (now : Z).

Definition touch (c : MemoryCache) (t : Touch) : MemoryCache :=
  match t with
  | TouchGet key now => snd (get c key now)
  | TouchHas key now => snd (has c key now)
  | TouchCleanup now => snd (cleanup c now)
  end.

Definition runTouches (ts : list Touch) (c : MemoryCache) : MemoryCache :=
  fold_left touch ts c.

(** A run of [set] calls, each with its key, value, TTL and clock reading. *)
Fixpoint runSets (fuel : nat) (calls : list (string * JsValue * option Z * Z))
  (c : MemoryCache) : Outcome MemoryCache :=
  match calls with
  | [] => Returned c
  | (key, v, ttl, now) :: calls' =>
      c' <- set fuel c key v ttl now ;; runSets fuel calls' c'
  end.

(** ** Sample caches *)

(** A cache of [maxMemory = 100] that holds the key [a]. *)
Definition smallCache : MemoryCache :=
  mkCache [("a", mkEntry (JStr "x") 5 5 None (Some 0))] [("a", 1)] 2
    1000 100 3600000 lru 0 0 0 (Some 300000).

(** A cache at capacity under LRU: [a] was touched last, [b] first. *)
Definition lruCache : MemoryCache :=
  mkCache
    [("a", mkEntry (JStr "x") 5 9 None (Some 0));
     ("b", mkEntry JNull 6 6 (Some 50) (Some 44))]
    [("a", 3); ("b", 2)] 4
    2 1000 3600000 lru 1 0 0 (Some 300000).

(** The same table under FIFO. *)
Definition fifoCache : MemoryCache :=
  mkCache
    [("a", mkEntry (JStr "x") 5 9 None (Some 0));
     ("b", mkEntry JNull 6 6 (Some 50) (Some 44))]
    [] 1
    2 1000 3600000 fifo 1 0 0 (Some 300000).

(** ** The FIFO ranking of a table: its keys with their creation times *)
Definition ranking (c : MemoryCache) : list (string * Z) :=
  map (fun kv => (fst kv, createdAt (snd kv))) (store c).

(** The table holds [key] with value [v] and no [expiresAt]. *)
Definition permanent (c : MemoryCache) (key : string) (v : JsValue) : Prop :=
  exists e,
    JsMap.get (store c) key = Some e /\ expiresAt e = None /\ value e = v.

(** The terms that a glob pattern stands for, one per pattern character. *)
Fixpoint compileGlob (pattern : string) : RegExp :=
  match pattern with
  | EmptyString => []
  | String p pattern' =>
      (if Ascii.eqb p "*" then TStar ADot
       else if Ascii.eqb p "?" then TAtom ADot
       else TAtom (ALit p)) :: compileGlob pattern'
  end.

(** The term that an atom awaiting a possible [*] becomes without one. *)
Definition flushed (pending : option Atom) : RegExp :=
  match pending with Some a => [TAtom a] | None => [] end.

(** The three [replace] passes on one pattern character. *)
Definition translateChar (p : ascii) : string :=
  if isEscapedByGlob p then String "\" (String p "")
  else if Ascii.eqb p "*" then ".*"
  else if Ascii.eqb p "?" then "."
  else String p "".

(** A table with the given keys, for the pattern examples. *)
Definition tableOf (ks : list string) : MemoryCache :=
  mkCache (map (fun k => (k, mkEntry JNull 0 0 None (Some 0))) ks) [] 1
    1000 104857600 3600000 fifo 0 0 0 (Some 300000).

(** ** Runs of calls on one cache *)

Inductive Op : Type :=
| OpSet (key : string) (v : JsValue) (ttl : option Z) (now : Z)
| OpGet (key : string) (now : Z)
| OpHas (key : string) (now : Z)
| OpDelete (key : string)
| OpClear
| OpCleanup (now : Z).

Definition runOp (fuel : nat) (c : MemoryCache) (op : Op) : Outcome MemoryCache :=
  match op with
  | OpSet key v ttl now => set fuel c key v ttl now
  | OpGet key now => Returned (snd (get c key now))
  | OpHas key now => Returned (snd (has c key now))
  | OpDelete key => Returned (snd (delete c key))
  | OpClear => Returned (clear c)
  | OpCleanup now => Returned (snd (cleanup c now))
  end.

Fixpoint runOps (fuel : nat) (ops : list Op) (c : MemoryCache)
  : Outcome MemoryCache :=
  match ops with
  | [] => Returned c
  | op :: ops' => c' <- runOp fuel c op ;; runOps fuel ops' c'
  end.

(** The order indices in use are distinct and below the next one. *)
Definition orderFresh (c : MemoryCache) : Prop :=
  Forall (fun ki => snd ki < nextAccessTime c) (accessOrder c)
  /\ NoDup (map snd (accessOrder c)).

(** The effective TTL of a [set] call. *)
Definition effectiveTTL (c : MemoryCache) (ttl : option Z) : Z :=
  ttl ?? defaultTTL c.

(** The entries of a table that are expired, or live, at [now]. *)
Definition expiredAt (now : Z) (kv : string * CacheEntry) : bool :=
  isExpired (snd kv) now.

Definition liveAt (now : Z) (kv : string * CacheEntry) : bool :=
  negb (isExpired (snd kv) now).

(** The cache that [new MemoryCache()] returns. *)
Definition defaultCache : MemoryCache :=
  mkCache [] [] 1 1000 104857600 3600000 lru 0 0 0 (Some 300000).

(** The cache that a call returned, or [d] when it did not return. *)
Definition returnedOr (d : MemoryCache) (o : Outcome MemoryCache) : MemoryCache :=
  match o with Returned c => c | _ => d end.

(** A run on the default cache that leaves [a] and [b] in the table. *)
Definition sampleOps : list Op :=
  [OpSet "a" (JStr "x") None 10; OpSet "b" JNull None 12;
   OpGet "a" 13; OpHas "c" 14; OpCleanup 15].

Definition sampleRun : MemoryCache :=
  returnedOr defaultCache (runOps 0 sampleOps defaultCache).

(** * The [Cache] unit of [src/cache.ts], over a [MemoryCache] backend

    The unit keeps its state in [props]: the backend, the namespace and the
    key prefix.  The configuration fields [customBackend] (any [ICache]) and
    [metadata], and the [dna] and [created] properties of the [Unit] base
    class, are left out. *)

Abbreviation MemoryCache_constructor := constructor (only parsing).
Abbreviation MemoryCache_get := get (only parsing).
Abbreviation MemoryCache_set := set (only parsing).
Abbreviation MemoryCache_has := has (only parsing).
Abbreviation MemoryCache_delete := delete (only parsing).
Abbreviation MemoryCache_clear := clear (only parsing).
Abbreviation MemoryCache_keys := keys (only parsing).
Abbreviation MemoryCache_size := size (only parsing).

Record CacheConfig : Type := mkCacheConfig {
  cfg_memoryOptions : option MemoryCacheConfig;
  cfg_namespace : option string;
  cfg_keyPrefix : option string
}.

Record CacheProps : Type := mkProps {
  backend : MemoryCache;
  namespace : string;
  keyPrefix : string
}.

Definition withBackend (u : CacheProps) (b : MemoryCache) : CacheProps :=
  mkProps b (namespace u) (keyPrefix u).

(** [key.slice(start)], for a [start] that is not negative. *)
Fixpoint slice (start : nat) (s : string) : string :=
  match start, s with
  | O, _ => s
  | S _, EmptyString => EmptyString
  | S start', String _ s' => slice start' s'
  end.

Module Cache.

(** [Cache.create]: an absent [memoryOptions] is the empty configuration. *)
Definition create (config : CacheConfig) : Outcome CacheProps :=
  b <- MemoryCache_constructor (cfg_memoryOptions config ?? emptyConfig) ;;
  Returned
    {| backend := b;
       namespace := cfg_namespace config ?? "default";
       keyPrefix := cfg_keyPrefix config ?? "" |}.

Definition prefixKey (u : CacheProps) (key : string) : string :=
  if truthy (keyPrefix u) then keyPrefix u ++ key else key.

Definition get (u : CacheProps) (key : string) (now : Z)
  : JsValue * CacheProps :=
  let r := MemoryCache_get (backend u) (prefixKey u key) now in
  (fst r, withBackend u (snd r)).

Definition set (fuel : nat) (u : CacheProps) (key : string) (v : JsValue)
  (ttl : option Z) (now : Z) : Outcome CacheProps :=
  b <- MemoryCache_set fuel (backend u) (prefixKey u key) v ttl now ;;
  Returned (withBackend u b).

Definition has (u : CacheProps) (key : string) (now : Z) : bool * CacheProps :=
  let r := MemoryCache_has (backend u) (prefixKey u key) now in
  (fst r, withBackend u (snd r)).

Definition delete (u : CacheProps) (key : string) : bool * CacheProps :=
  let r := MemoryCache_delete (backend u) (prefixKey u key) in
  (fst r, withBackend u (snd r)).

(** [Cache.clear]: with a prefix, the keys that the backend lists for
    [prefix*] are deleted one by one; without, the backend is cleared.
    [None] when [backend.keys] raises. *)
Definition clear (u : CacheProps) : option CacheProps :=
  if truthy (keyPrefix u) then
    match MemoryCache_keys (backend u) (Some (keyPrefix u ++ "*")) with
    | Some ks =>
        Some (withBackend u
                (fold_left (fun b key => snd (MemoryCache_delete b key)) ks
                   (backend u)))
    | None => None
    end
  else Some (withBackend u (MemoryCache_clear (backend u))).

(** [Cache.keys]: the pattern is put after the prefix, and the prefix
    length is cut off every key that the backend lists. *)
Definition keys (u : CacheProps) (pattern : option string)
  : option (list string) :=
  let searchPattern :=
    match pattern with
    | Some p => if truthy p then keyPrefix u ++ p else keyPrefix u ++ "*"
    | None => keyPrefix u ++ "*"
    end in
  match MemoryCache_keys (backend u) (Some searchPattern) with
  | Some prefixedKeys =>
      if truthy (keyPrefix u) then
        Some (map (slice (String.length (keyPrefix u))) prefixedKeys)
      else Some prefixedKeys
  | None => None
  end.

Definition size (u : CacheProps) : option Z :=
  if negb (truthy (keyPrefix u)) then Some (MemoryCache_size (backend u))
  else
    match MemoryCache_keys (backend u) (Some (keyPrefix u ++ "*")) with
    | Some ourKeys => Some (Z.of_nat (List.length ourKeys))
    | None => None
    end.


End Cache.

(** A key prefix without glob characters. *)
Definition isGlobFree (s : string) : bool :=
  forallb (fun c => negb (Ascii.eqb c "*" || Ascii.eqb c "?"))
    (list_ascii_of_string s).

(** The keys of a unit, as its users name them: the backend keys that start
    with the prefix, without it. *)
Definition unitKeys (u : CacheProps) : list string :=
  map (slice (String.length (keyPrefix u)))
    (filter (String.prefix (keyPrefix u)) (JsMap.keys (store (backend u)))).

(** A unit with the prefix [app:] over a table shared with other keys. *)
Definition sampleUnit : CacheProps :=
  mkProps (tableOf ["app:user:1"; "other:1"; "app:post:1"; "app:"]) "default" "app:".

(** ** Calls that [set] can serve

    A cache in a state that its calls produce, with no empty key and with
    values that [JSON.stringify] can size. *)
Definition servable (c : MemoryCache) : Prop :=
  wf c
  /\ ~ In "" (JsMap.keys (store c))
  /\ Forall (fun kv => serializable (value (snd kv))) (store c).

(** A call that brings in neither the empty key nor a value that cannot be
    sized. *)
Definition plainCall (op : Op) : Prop :=
  match op with
  | OpSet key v _ _ => key <> "" /\ serializable v
  | _ => True
  end.

(** A configuration with a negative capacity and a negative memory limit. *)
Definition negativeConfig : MemoryCacheConfig :=
  mkConfig (Some (-1)) (Some (-5)) None None None.

Definition negativeOps : list Op :=
  [OpSet "a" (JStr "x") None 10; OpGet "a" 11; OpSet "b" JNull (Some 0) 12;
   OpHas "b" 13; OpCleanup 14; OpDelete "a"; OpClear].

(** * Facts about [JsMap] *)

Module JsMapFacts.
Section Facts.
Variable V : Type.
Implicit Types (m : JsMap.t V) (k : string) (v : V).

Lemma get_In m k v : JsMap.get m k = Some v -> In (k, v) m.
Proof.
  induction m as [|[k' v'] m IH]; simpl; [discriminate|].
  destruct (String.eqb_spec k' k) as [->|Hne]; intros H.
  - injection H as ->. now left.
  - right. auto.
Qed.

Lemma get_None_iff m k : JsMap.get m k = None <-> ~ In k (JsMap.keys m).
Proof.
  induction m as [|[k' v'] m IH]; simpl; [tauto|].
  destruct (String.eqb_spec k' k) as [->|Hne].
  - split; [discriminate|]. intros H. exfalso. apply H. now left.
  - rewrite IH. split; [intros H [E|I]; auto | intros H I; apply H; auto].
Qed.

Lemma has_true_iff m k : JsMap.has m k = true <-> In k (JsMap.keys m).
Proof.
  unfold JsMap.has. destruct (JsMap.get m k) eqn:E.
  - split; [intros _|reflexivity].
    apply get_In in E. apply (in_map fst) in E. exact E.
  - apply get_None_iff in E. split; [discriminate | contradiction].
Qed.

Lemma has_false_iff m k : JsMap.has m k = false <-> ~ In k (JsMap.keys m).
Proof.
  rewrite <- has_true_iff. destruct (JsMap.has m k); split; congruence.
Qed.

Lemma get_set_same m k v : JsMap.get (JsMap.set m k v) k = Some v.
Proof.
  induction m as [|[k' v'] m IH]; simpl.
  - now rewrite String.eqb_refl.
  - destruct (String.eqb_spec k' k) as [->|Hne]; simpl.
    + now rewrite String.eqb_refl.
    + destruct (String.eqb_spec k' k); [contradiction|exact IH].
Qed.

Lemma get_set_other m k k' v :
  k <> k' -> JsMap.get (JsMap.set m k v) k' = JsMap.get m k'.
Proof.
  intros Hne. induction m as [|[k0 v0] m IH]; simpl.
  - destruct (String.eqb_spec k k'); [contradiction|reflexivity].
  - destruct (String.eqb_spec k0 k) as [->|Hne0]; simpl.
    + destruct (String.eqb_spec k k'); [contradiction|reflexivity].
    + now rewrite IH.
Qed.

Lemma keys_set m k v :
  JsMap.keys (JsMap.set m k v)
  = if JsMap.has m k then JsMap.keys m else (JsMap.keys m ++ [k])%list.
Proof.
  unfold JsMap.has.
  induction m as [|[k' v'] m IH]; simpl; [reflexivity|].
  destruct (String.eqb_spec k' k) as [->|Hne]; simpl; [reflexivity|].
  rewrite IH. now destruct (JsMap.get m k).
Qed.

Lemma In_keys_set m k v k' :
  In k' (JsMap.keys (JsMap.set m k v)) <-> k' = k \/ In k' (JsMap.keys m).
Proof.
  rewrite keys_set. destruct (JsMap.has m k) eqn:E.
  - apply has_true_iff in E. split; [auto|intros [->|H]; auto].
  - rewrite in_app_iff. simpl. intuition congruence.
Qed.

Lemma length_set m k v :
  List.length (JsMap.set m k v)
  = if JsMap.has m k then List.length m else S (List.length m).
Proof.
  rewrite <- (length_map fst (JsMap.set m k v)).
  fold (JsMap.keys (JsMap.set m k v)). rewrite keys_set.
  destruct (JsMap.has m k); unfold JsMap.keys.
  - now rewrite length_map.
  - rewrite length_app, length_map. simpl. lia.
Qed.

Lemma NoDup_set m k v :
  NoDup (JsMap.keys m) -> NoDup (JsMap.keys (JsMap.set m k v)).
Proof.
  intros H. rewrite keys_set. destruct (JsMap.has m k) eqn:E; [exact H|].
  apply has_false_iff in E.
  apply NoDup_app; [exact H|repeat constructor; intros []|].
  intros x Hx [<-|[]]. contradiction.
Qed.

Lemma keys_delete m k :
  JsMap.keys (JsMap.delete m k)
  = filter (fun k' => negb (String.eqb k' k)) (JsMap.keys m).
Proof.
  unfold JsMap.keys, JsMap.delete.
  induction m as [|[k' v'] m IH]; simpl; [reflexivity|].
  destruct (String.eqb k' k); simpl; now rewrite IH.
Qed.

Lemma In_keys_delete m k k' :
  In k' (JsMap.keys (JsMap.delete m k)) <-> In k' (JsMap.keys m) /\ k' <> k.
Proof.
  rewrite keys_delete, filter_In.
  destruct (String.eqb_spec k' k); simpl; intuition congruence.
Qed.

Lemma In_delete m k kv :
  In kv (JsMap.delete m k) <-> In kv m /\ fst kv <> k.
Proof.
  unfold JsMap.delete. rewrite filter_In.
  destruct (String.eqb_spec (fst kv) k); simpl; intuition congruence.
Qed.

Lemma NoDup_delete m k :
  NoDup (JsMap.keys m) -> NoDup (JsMap.keys (JsMap.delete m k)).
Proof. intros H. rewrite keys_delete. now apply NoDup_filter. Qed.

Lemma length_delete_le m k :
  (List.length (JsMap.delete m k) <= List.length m)%nat.
Proof. apply filter_length_le. Qed.

Lemma delete_absent m k :
  ~ In k (JsMap.keys m) -> JsMap.delete m k = m.
Proof.
  induction m as [|[k' v'] m IH]; simpl; [reflexivity|].
  intros H. destruct (String.eqb_spec k' k) as [->|Hne]; simpl.
  - exfalso. apply H. now left.
  - f_equal. apply IH. intros I. apply H. now right.
Qed.

Lemma length_delete_present m k :
  NoDup (JsMap.keys m) -> In k (JsMap.keys m) ->
  S (List.length (JsMap.delete m k)) = List.length m.
Proof.
  induction m as [|[k' v'] m IH]; simpl; [intros _ []|].
  intros Hnd Hin. inversion Hnd as [|? ? Hnotin Hnd']; subst.
  destruct (String.eqb_spec k' k) as [->|Hne]; simpl.
  - fold (JsMap.delete m k). now rewrite delete_absent.
  - f_equal. apply IH; [exact Hnd'|]. destruct Hin; [contradiction|assumption].
Qed.

Lemma get_delete_same m k : JsMap.get (JsMap.delete m k) k = None.
Proof. apply get_None_iff. rewrite In_keys_delete. tauto. Qed.

Lemma get_delete_other m k k' :
  k <> k' -> JsMap.get (JsMap.delete m k) k' = JsMap.get m k'.
Proof.
  intros Hne. induction m as [|[k0 v0] m IH]; simpl; [reflexivity|].
  destruct (String.eqb_spec k0 k) as [->|Hne0]; simpl.
  - destruct (String.eqb_spec k k'); [contradiction|exact IH].
  - now rewrite IH.
Qed.

Lemma In_set m k v kv :
  In kv (JsMap.set m k v) -> kv = (k, v) \/ In kv m.
Proof.
  induction m as [|[k' v'] m IH]; simpl.
  - intros [<-|[]]. now left.
  - destruct (String.eqb_spec k' k) as [->|Hne]; simpl.
    + intros [<-|H]; auto.
    + intros [<-|H]; auto. destruct (IH H); auto.
Qed.

Lemma In_get_NoDup m k v :
  NoDup (JsMap.keys m) -> In (k, v) m -> JsMap.get m k = Some v.
Proof.
  induction m as [|[k' v'] m IH]; simpl; [intros _ []|].
  intros Hnd Hin. inversion Hnd as [|? ? Hnotin Hnd']; subst.
  destruct (String.eqb_spec k' k) as [->|Hne].
  - destruct Hin as [E|I]; [congruence|].
    exfalso. apply Hnotin. apply (in_map fst) in I. exact I.
  - destruct Hin as [E|I]; [congruence|auto].
Qed.

Lemma size_nonneg m : 0 <= JsMap.size m.
Proof. unfold JsMap.size. lia. Qed.

Lemma size_zero_iff m : JsMap.size m = 0 <-> m = [].
Proof.
  unfold JsMap.size. destruct m; simpl; split; try reflexivity;
    try discriminate; lia.
Qed.
End Facts.
End JsMapFacts.

(** * The victim search *)

Section ScanFacts.
Variable V : Type.
Variable rank : V -> Z.

Lemma scanStep_some acc kv : fst (scanStep rank acc kv) <> None.
Proof.
  unfold scanStep. destruct (fst acc) as [oldest|] eqn:E; simpl.
  - destruct (rank (snd kv) <? oldest); simpl; congruence.
  - discriminate.
Qed.

Lemma scan_some m acc :
  fst acc <> None \/ m <> [] -> fst (fold_left (scanStep rank) m acc) <> None.
Proof.
  revert acc. induction m as [|kv m IH]; intros acc H; simpl.
  - destruct H as [H|H]; [exact H|congruence].
  - apply IH. left. apply scanStep_some.
Qed.

(** The search returns either what it started from or an entry of the
    map with its rank. *)
Lemma scan_found m acc :
  fold_left (scanStep rank) m acc = acc
  \/ exists v, In (snd (fold_left (scanStep rank) m acc), v) m
               /\ fst (fold_left (scanStep rank) m acc) = Some (rank v).
Proof.
  revert acc. induction m as [|[k v] m IH]; intros acc; simpl; [now left|].
  destruct (IH (scanStep rank acc (k, v))) as [E|[v' [Hin Hr]]].
  - rewrite E. unfold scanStep; simpl.
    destruct (fst acc) as [oldest|] eqn:Ea.
    + destruct (rank v <? oldest); [|now left].
      right. exists v. simpl. auto.
    + right. exists v. simpl. auto.
  - right. exists v'. auto.
Qed.

(** The rank it returns is a lower bound of every rank it saw. *)
Lemma scan_lower m acc t :
  fst (fold_left (scanStep rank) m acc) = Some t ->
  (forall kv, In kv m -> t <= rank (snd kv))
  /\ (forall t0, fst acc = Some t0 -> t <= t0).
Proof.
  revert acc. induction m as [|[k v] m IH]; intros acc H; simpl in *.
  - split; [intros ? []|]. intros t0 E. rewrite E in H. injection H. lia.
  - destruct (IH _ H) as [Hm Hacc]. unfold scanStep in Hacc; simpl in Hacc.
    destruct (fst acc) as [oldest|] eqn:Ea.
    + destruct (Z.ltb_spec (rank v) oldest) as [Hlt|Hge]; simpl in Hacc.
      * specialize (Hacc _ eq_refl). split.
        -- intros kv [<-|Hin]; simpl; [lia|auto].
        -- intros t0 E. injection E as <-. lia.
      * rewrite Ea in Hacc. specialize (Hacc _ eq_refl). split.
        -- intros kv [<-|Hin]; simpl; [lia|auto].
        -- intros t0 E. injection E as <-. lia.
    + specialize (Hacc _ eq_refl). split.
      * intros kv [<-|Hin]; simpl; [lia|auto].
      * discriminate.
Qed.

Lemma scanOldest_spec m :
  m <> [] ->
  exists v, In (snd (scanOldest rank m), v) m
            /\ forall kv, In kv m -> rank v <= rank (snd kv).
Proof.
  intros Hne. unfold scanOldest.
  destruct (scan_found m (None, "")) as [E|[v [Hin Hr]]].
  - exfalso. apply (@scan_some m (None, "")); [now right|]. now rewrite E.
  - exists v. split; [exact Hin|]. now apply (scan_lower m (None, "")).
Qed.

Lemma scanOldest_nil : scanOldest rank [] = (None, "").
Proof. reflexivity. Qed.
End ScanFacts.

(** * [evictOne] *)

Lemma truthy_iff s : truthy s = true <-> s <> "".
Proof. destruct s; simpl; split; congruence. Qed.

Lemma evictOne_cases c :
  evictOne c = c
  \/ (store c <> [] /\ keyToEvict c <> ""
      /\ evictOne c =
         withEvictions
           (withAccessOrder
              (withStore c (JsMap.delete (store c) (keyToEvict c)))
              (JsMap.delete (accessOrder c) (keyToEvict c)))
           (evictions c + 1)).
Proof.
  unfold evictOne. destruct (Z.eqb_spec (JsMap.size (store c)) 0) as [E|E].
  - now left.
  - destruct (truthy (keyToEvict c)) eqn:T; [right|now left].
    repeat split.
    + intros H. apply E. now rewrite H.
    + now apply truthy_iff.
Qed.

Lemma evictOne_config c :
  maxSize (evictOne c) = maxSize c /\ maxMemory (evictOne c) = maxMemory c
  /\ defaultTTL (evictOne c) = defaultTTL c
  /\ evictionPolicy (evictOne c) = evictionPolicy c
  /\ nextAccessTime (evictOne c) = nextAccessTime c.
Proof.
  destruct (evictOne_cases c) as [->|(_ & _ & ->)]; simpl; auto.
Qed.

Lemma evictOne_length_le c :
  (List.length (store (evictOne c)) <= List.length (store c))%nat.
Proof.
  destruct (evictOne_cases c) as [->|(_ & _ & ->)]; simpl; [lia|].
  apply JsMapFacts.length_delete_le.
Qed.

Lemma evictOne_keys_incl c k :
  In k (JsMap.keys (store (evictOne c))) -> In k (JsMap.keys (store c)).
Proof.
  destruct (evictOne_cases c) as [->|(_ & _ & ->)]; simpl; [auto|].
  rewrite JsMapFacts.In_keys_delete. tauto.
Qed.

(** In a well-formed cache the key that the search returns is a key of the
    table. *)
Lemma keyToEvict_in_store c :
  wf c -> store c <> [] -> In (keyToEvict c) (JsMap.keys (store c)).
Proof.
  intros W Hne. unfold keyToEvict. destruct (evictionPolicy c) eqn:P.
  - assert (Ha : accessOrder c <> []).
    { destruct (store c) as [|[k e] s] eqn:S; [congruence|].
      intros Ha. assert (In k (JsMap.keys (accessOrder c))) as Hin.
      { apply (wf_order_lru W P). rewrite S. now left. }
      now rewrite Ha in Hin. }
    destruct (scanOldest_spec (fun accessTime : Z => accessTime) Ha)
      as [v [Hin _]].
    apply (wf_order_lru W P). apply (in_map fst) in Hin. exact Hin.
  - destruct (scanOldest_spec createdAt Hne) as [v [Hin _]].
    apply (in_map fst) in Hin. exact Hin.
Qed.

Lemma wf_evictOne c : wf c -> wf (evictOne c).
Proof.
  intros W. destruct (evictOne_cases c) as [->|(_ & _ & ->)]; [exact W|].
  destruct W as [Hs Ha Hl Hf]. constructor; simpl.
  - now apply JsMapFacts.NoDup_delete.
  - now apply JsMapFacts.NoDup_delete.
  - intros P k. rewrite !JsMapFacts.In_keys_delete, (Hl P). tauto.
  - intros P. now rewrite (Hf P).
Qed.

(** With no empty key in the table, [evictOne] removes exactly one entry
    of a non-empty table. *)
Lemma evictOne_progress c :
  wf c -> store c <> [] -> ~ In "" (JsMap.keys (store c)) ->
  S (List.length (store (evictOne c))) = List.length (store c)
  /\ evictions (evictOne c) = evictions c + 1.
Proof.
  intros W Hne Hk. pose proof (keyToEvict_in_store W Hne) as Hin.
  unfold evictOne.
  destruct (Z.eqb_spec (JsMap.size (store c)) 0) as [E|E].
  - apply JsMapFacts.size_zero_iff in E. contradiction.
  - destruct (truthy (keyToEvict c)) eqn:T.
    + simpl. split; [|reflexivity].
      apply JsMapFacts.length_delete_present; [apply W|exact Hin].
    + exfalso. destruct (keyToEvict c); [contradiction|discriminate].
Qed.

(** * The invariant is kept by every operation *)

Lemma wf_constructor config c : constructor config = Returned c -> wf c.
Proof.
  unfold constructor. intros H. injection H as <-.
  constructor; simpl; try constructor; tauto.
Qed.

Lemma wf_remove c k :
  wf c ->
  wf (withAccessOrder (withStore c (JsMap.delete (store c) k))
        (JsMap.delete (accessOrder c) k)).
Proof.
  intros [Hs Ha Hl Hf]. constructor; simpl.
  - now apply JsMapFacts.NoDup_delete.
  - now apply JsMapFacts.NoDup_delete.
  - intros P k'. rewrite !JsMapFacts.In_keys_delete, (Hl P). tauto.
  - intros P. now rewrite (Hf P).
Qed.

(** Writing an entry and, under LRU, its order index. *)
Lemma wf_write c key entry :
  wf c ->
  wf (match evictionPolicy c with
      | lru =>
          withNextAccessTime
            (withAccessOrder
               (withStore c (JsMap.set (store c) key entry))
               (JsMap.set (accessOrder c) key (nextAccessTime c)))
            (nextAccessTime c + 1)
      | fifo => withStore c (JsMap.set (store c) key entry)
      end).
Proof.
  intros [Hs Ha Hl Hf]. destruct (evictionPolicy c) eqn:P; constructor; simpl;
    try rewrite P; try discriminate.
  - now apply JsMapFacts.NoDup_set.
  - now apply JsMapFacts.NoDup_set.
  - intros _ k. rewrite !JsMapFacts.In_keys_set, (Hl eq_refl). tauto.
  - now apply JsMapFacts.NoDup_set.
  - exact Ha.
  - auto.
Qed.

Lemma insert_unfold c key v ttl now :
  insert c key v ttl now =
  let c1 :=
    if negb (JsMap.has (store c) key) && (JsMap.size (store c) >=? maxSize c)
    then evictOne c else c in
  match evictionPolicy c1 with
  | lru =>
      withNextAccessTime
        (withAccessOrder
           (withStore c1 (JsMap.set (store c1) key (newEntry c v ttl now)))
           (JsMap.set (accessOrder c1) key (nextAccessTime c1)))
        (nextAccessTime c1 + 1)
  | fifo => withStore c1 (JsMap.set (store c1) key (newEntry c v ttl now))
  end.
Proof. reflexivity. Qed.

Lemma wf_insert c key v ttl now : wf c -> wf (insert c key v ttl now).
Proof.
  intros W. rewrite insert_unfold. cbv zeta.
  apply wf_write. destruct (_ && _); [now apply wf_evictOne|exact W].
Qed.

Lemma insert_config c key v ttl now :
  maxSize (insert c key v ttl now) = maxSize c
  /\ maxMemory (insert c key v ttl now) = maxMemory c
  /\ evictionPolicy (insert c key v ttl now) = evictionPolicy c.
Proof.
  rewrite insert_unfold. cbv zeta.
  destruct (_ && _).
  - destruct (evictOne_config c) as (E1 & E2 & _ & E4 & _).
    destruct (evictionPolicy (evictOne c)) eqn:P; simpl;
      rewrite ?E1, ?E2, ?P; auto.
  - destruct (evictionPolicy c) eqn:P; simpl; auto.
Qed.

Lemma insert_store c key v ttl now :
  store (insert c key v ttl now) =
  JsMap.set
    (store (if negb (JsMap.has (store c) key)
               && (JsMap.size (store c) >=? maxSize c)
            then evictOne c else c))
    key (newEntry c v ttl now).
Proof.
  rewrite insert_unfold. cbv zeta.
  destruct (_ && _); [destruct (evictionPolicy (evictOne c))
                     | destruct (evictionPolicy c)]; reflexivity.
Qed.

Lemma insert_get c key v ttl now :
  JsMap.get (store (insert c key v ttl now)) key = Some (newEntry c v ttl now).
Proof. rewrite insert_store. apply JsMapFacts.get_set_same. Qed.

Lemma insert_keys c key v ttl now k :
  In k (JsMap.keys (store (insert c key v ttl now))) ->
  k = key \/ In k (JsMap.keys (store c)).
Proof.
  rewrite insert_store, JsMapFacts.In_keys_set. intros [H|H]; [now left|right].
  destruct (_ && _); [now apply evictOne_keys_incl|exact H].
Qed.

Lemma insert_entries c key v ttl now kv :
  In kv (store (insert c key v ttl now)) ->
  kv = (key, newEntry c v ttl now) \/ In kv (store c).
Proof.
  rewrite insert_store. intros H. apply JsMapFacts.In_set in H.
  destruct H as [H|H]; [now left|right].
  destruct (_ && _); [|exact H].
  destruct (evictOne_cases c) as [E|(_ & _ & E)]; rewrite E in H; [exact H|].
  simpl in H. now apply JsMapFacts.In_delete in H.
Qed.

Lemma insert_length c key v ttl now :
  (List.length (store (insert c key v ttl now)) <= S (List.length (store c)))%nat.
Proof.
  rewrite insert_store, JsMapFacts.length_set.
  destruct (_ && _).
  - pose proof (evictOne_length_le c). destruct (JsMap.has _ _); lia.
  - destruct (JsMap.has _ _); lia.
Qed.

Lemma wf_get c key now : wf c -> wf (snd (get c key now)).
Proof.
  intros W. unfold get. destruct (JsMap.get (store c) key) as [entry|] eqn:G.
  - destruct (isExpired entry now); simpl.
    + destruct (wf_remove key W) as [Hs Ha Hl Hf]. constructor; assumption.
    + unfold recordHit. cbv zeta. simpl evictionPolicy.
      pose proof (wf_write key
        (mkEntry (value entry) (createdAt entry) now (expiresAt entry)
           (ttl entry)) W) as W'.
      destruct (evictionPolicy c); destruct W' as [Hs Ha Hl Hf];
        constructor; assumption.
  - destruct W as [Hs Ha Hl Hf]. constructor; assumption.
Qed.

Lemma wf_delete c key : wf c -> wf (snd (delete c key)).
Proof. intros W. apply (wf_remove key W). Qed.

Lemma wf_clear c : wf (clear c).
Proof. constructor; simpl; try constructor; try tauto. Qed.

Lemma wf_cleanup c now : wf c -> wf (snd (cleanup c now)).
Proof.
  unfold cleanup. generalize (store c) at 1 as entries. intros entries.
  assert (forall n c0, wf c0 ->
            wf (snd (fold_left (cleanupStep now) entries (n, c0)))) as H.
  { induction entries as [|kv entries IH]; intros n c0 W; simpl; [exact W|].
    unfold cleanupStep at 2. simpl.
    destruct (isExpired (snd kv) now); apply IH; [|exact W].
    now apply wf_remove. }
  apply H.
Qed.

(** * Memory accounting *)

Lemma sumBytes_some (m : JsMap.t CacheEntry) acc :
  Forall (fun kv => serializable (value (snd kv))) m ->
  exists total, sumBytes m acc = Some total.
Proof.
  revert acc. induction m as [|[k e] m IH]; intros acc H; simpl.
  - now exists acc.
  - inversion H as [|? ? Hs Hm]; subst. unfold serializable in Hs. simpl in Hs.
    destruct (stringifyLength (value e)); [|congruence]. now apply IH.
Qed.

Lemma stringifyLength_nonneg v len : stringifyLength v = Some len -> 0 <= len.
Proof.
  unfold stringifyLength, strlen.
  destruct (JSON_stringify v); intros H; inversion H. lia.
Qed.

Lemma sumBytes_lower (m : JsMap.t CacheEntry) acc total :
  sumBytes m acc = Some total ->
  acc <= total
  /\ forall k e len, In (k, e) m -> stringifyLength (value e) = Some len ->
       acc + entryBytes k len <= total.
Proof.
  revert acc. induction m as [|[k e] m IH]; intros acc H; simpl in H.
  - injection H as <-. split; [lia|intros ? ? ? []].
  - destruct (stringifyLength (value e)) as [len|] eqn:L; [|discriminate].
    apply IH in H. destruct H as [Hle Hin].
    pose proof (stringifyLength_nonneg _ L). unfold strlen in *.
    split; [lia|]. intros k' e' len' [E|I] L'.
    + injection E as <- <-. rewrite L in L'. injection L' as <-.
      unfold entryBytes, strlen. lia.
    + specialize (Hin _ _ _ I L'). unfold entryBytes, strlen in *. lia.
Qed.

(** * The eviction loop of [checkMemoryLimits] *)

Lemma evictWhileOver_under fuel m c :
  m <= maxMemory c -> evictWhileOver fuel m c = Returned c.
Proof.
  intros H. destruct fuel; simpl;
    destruct (Z.gtb_spec m (maxMemory c)); try lia; reflexivity.
Qed.

Lemma evictWhileOver_empty fuel m c :
  store c = [] -> evictWhileOver fuel m c = Returned c.
Proof.
  intros H. destruct fuel; simpl; rewrite H; simpl;
    now rewrite andb_false_r.
Qed.

(** Over the limit, and with no empty key in the table, the loop runs until
    the table is empty, whatever the entries are. *)
Lemma evictWhileOver_drains fuel m c :
  wf c -> ~ In "" (JsMap.keys (store c)) -> maxMemory c < m ->
  (List.length (store c) <= fuel)%nat ->
  exists c', evictWhileOver fuel m c = Returned c'
             /\ store c' = [] /\ wf c'
             /\ maxMemory c' = maxMemory c /\ maxSize c' = maxSize c
             /\ evictions c' = evictions c + JsMap.size (store c).
Proof.
  revert c. induction fuel as [|fuel IH]; intros c W Hk Hm Hf.
  - assert (store c = []) as E by (destruct (store c); [reflexivity|simpl in Hf; lia]).
    exists c. rewrite evictWhileOver_empty by exact E. rewrite E.
    unfold JsMap.size; simpl. intuition lia.
  - destruct (Nat.eq_dec (List.length (store c)) 0) as [E|E].
    + apply length_zero_iff_nil in E.
      exists c. rewrite evictWhileOver_empty by exact E. rewrite E.
      unfold JsMap.size; simpl. intuition lia.
    + assert (store c <> []) as Hne by (intros H; apply E; now rewrite H).
      simpl.
      destruct (Z.gtb_spec m (maxMemory c)); [|lia].
      replace (JsMap.size (store c) >? 0) with true
        by (unfold JsMap.size; symmetry; apply Z.gtb_lt; lia).
      simpl.
      destruct (evictOne_progress W Hne Hk) as [Hlen Hev].
      destruct (evictOne_config c) as (E1 & E2 & _).
      destruct (IH (evictOne c)) as (c' & R & Hs & W' & M1 & M2 & Ev).
      * now apply wf_evictOne.
      * intros I. apply Hk. now apply evictOne_keys_incl.
      * now rewrite E2.
      * lia.
      * exists c'.
        assert (evictions c' = evictions c + JsMap.size (store c)) as Ev'.
        { rewrite Ev, Hev. unfold JsMap.size. lia. }
        intuition congruence.
Qed.

Lemma evictOne_get c k :
  In k (JsMap.keys (store (evictOne c))) ->
  JsMap.get (store (evictOne c)) k = JsMap.get (store c) k.
Proof.
  destruct (evictOne_cases c) as [->|(_ & _ & ->)]; simpl; [reflexivity|].
  rewrite JsMapFacts.In_keys_delete. intros [_ Hne].
  apply JsMapFacts.get_delete_other. congruence.
Qed.

(** What a returning loop leaves: a well-formed cache whose table is a part
    of the table it started from, with the entries untouched. *)
Lemma evictWhileOver_returned fuel m c c' :
  evictWhileOver fuel m c = Returned c' -> wf c ->
  wf c'
  /\ (List.length (store c') <= List.length (store c))%nat
  /\ (forall k, In k (JsMap.keys (store c')) ->
        In k (JsMap.keys (store c))
        /\ JsMap.get (store c') k = JsMap.get (store c) k)
  /\ maxSize c' = maxSize c /\ maxMemory c' = maxMemory c
  /\ evictionPolicy c' = evictionPolicy c.
Proof.
  revert c. induction fuel as [|fuel IH]; intros c; simpl.
  - destruct (_ && _); [discriminate|]. intros H W. injection H as <-.
    intuition.
  - destruct (_ && _).
    + intros H W. destruct (IH _ H (wf_evictOne W)) as (W' & L & K & C).
      destruct (evictOne_config c) as (E1 & E2 & _ & E4 & _).
      pose proof (evictOne_length_le c).
      split; [exact W'|]. split; [lia|]. split; [|intuition congruence].
      intros k Hk. destruct (K k Hk) as [Hin Hget]. split.
      * now apply evictOne_keys_incl.
      * rewrite Hget. now apply evictOne_get.
    + intros H W. injection H as <-. intuition.
Qed.

Lemma set_returned fuel c key v ttl now c' :
  set fuel c key v ttl now = Returned c' -> wf c ->
  wf c'
  /\ (List.length (store c') <= List.length (store (insert c key v ttl now)))%nat
  /\ (forall k, In k (JsMap.keys (store c')) ->
        In k (JsMap.keys (store (insert c key v ttl now)))
        /\ JsMap.get (store c') k
           = JsMap.get (store (insert c key v ttl now)) k)
  /\ maxSize c' = maxSize c /\ maxMemory c' = maxMemory c
  /\ evictionPolicy c' = evictionPolicy c.
Proof.
  unfold set, checkMemoryLimits. intros H W.
  destruct (estimateMemoryUsage _); [|discriminate].
  apply evictWhileOver_returned in H; [|now apply wf_insert].
  destruct (insert_config c key v ttl now) as (E1 & E2 & E3).
  intuition congruence.
Qed.

Lemma wf_set fuel c key v ttl now c' :
  set fuel c key v ttl now = Returned c' -> wf c -> wf c'.
Proof. intros H W. apply set_returned in H; [tauto|exact W]. Qed.

(** * The entry bound for non-empty keys *)

(** At a capacity of at least one entry, an insertion with no empty key
    involved leaves the table within the capacity it was within. *)
Lemma insert_capacity c key v ttl now :
  wf c -> 1 <= maxSize c -> key <> "" -> ~ In "" (JsMap.keys (store c)) ->
  JsMap.size (store c) <= maxSize c ->
  JsMap.size (store (insert c key v ttl now)) <= maxSize c.
Proof.
  intros W Hn Hkey Hk Hsz. rewrite insert_store. unfold JsMap.size in *.
  rewrite JsMapFacts.length_set.
  destruct (JsMap.has (store c) key) eqn:Hhas; simpl.
  - rewrite Hhas. exact Hsz.
  - destruct (Z.geb_spec (Z.of_nat (List.length (store c))) (maxSize c)) as [Hfull|Hroom].
    + assert (store c <> []) as Hne.
      { intros E. rewrite E in Hfull. simpl in Hfull. lia. }
      destruct (evictOne_progress W Hne Hk) as [Hlen _].
      destruct (JsMap.has (store (evictOne c)) key); lia.
    + rewrite Hhas. lia.
Qed.

Lemma set_capacity fuel c key v ttl now c' :
  wf c -> 1 <= maxSize c -> key <> "" -> ~ In "" (JsMap.keys (store c)) ->
  size c <= maxSize c ->
  set fuel c key v ttl now = Returned c' ->
  wf c' /\ ~ In "" (JsMap.keys (store c')) /\ size c' <= maxSize c'
  /\ maxSize c' = maxSize c.
Proof.
  intros W Hn Hkey Hk Hsz H.
  apply set_returned in H; [|exact W]. destruct H as (W' & L & K & E1 & _).
  pose proof (@insert_capacity c key v ttl now W Hn Hkey Hk Hsz) as Hcap.
  split; [exact W'|]. split; [|unfold size, JsMap.size in *; split; lia].
  intros Hin. apply K in Hin. destruct Hin as [Hin _].
  apply insert_keys in Hin. destruct Hin; [congruence|contradiction].
Qed.

(** * Memory limit enforcement in [set] *)

Lemma set_within_limit fuel c key v ttl now :
  match estimateMemoryUsage (insert c key v ttl now) with
  | Some m => m <=? maxMemory (insert c key v ttl now)
  | None => false
  end = true ->
  set fuel c key v ttl now = Returned (insert c key v ttl now).
Proof.
  unfold set, checkMemoryLimits.
  destruct (estimateMemoryUsage _) as [m|]; [|discriminate].
  intros H. apply evictWhileOver_under. now apply Z.leb_le.
Qed.

Lemma estimate_empty c : store c = [] -> estimateMemoryUsage c = Some 0.
Proof. unfold estimateMemoryUsage. now intros ->. Qed.

(** C1 (as the code has it): with serializable values and no empty key
    involved, [set] returns; on return the estimated usage is at or below
    [maxMemory] or the table is empty; a table within the limit after the
    insertion is left as inserted, and an entry whose own estimate exceeds
    the limit is not retained: the table is emptied. *)
Theorem set_enforces_memory_limit c key v ttl now :
  wf c -> key <> "" -> ~ In "" (JsMap.keys (store c)) ->
  serializable v ->
  Forall (fun kv => serializable (value (snd kv))) (store c) ->
  exists c',
    (forall fuel, (List.length (store c) < fuel)%nat ->
       set fuel c key v ttl now = Returned c')
    /\ ((exists m, estimateMemoryUsage c' = Some m /\ m <= maxMemory c')
        \/ store c' = [])
    /\ (forall m, estimateMemoryUsage (insert c key v ttl now) = Some m ->
          m <= maxMemory c -> c' = insert c key v ttl now)
    /\ (forall len, stringifyLength v = Some len ->
          maxMemory c < entryBytes key len -> store c' = []).
Proof.
  intros W Hkey Hk Hv Hall.
  pose proof (wf_insert key v ttl now W) as Wi.
  destruct (insert_config c key v ttl now) as (_ & Emem & _).
  assert (Forall (fun kv => serializable (value (snd kv)))
            (store (insert c key v ttl now))) as Hall'.
  { apply Forall_forall. intros kv Hin. apply insert_entries in Hin.
    destruct Hin as [->|Hin]; [exact Hv|].
    revert kv Hin. now apply Forall_forall. }
  destruct (sumBytes_some 0 Hall') as [m Hm].
  assert (forall len, stringifyLength v = Some len -> entryBytes key len <= m)
    as Hentry.
  { intros len Hlen. destruct (sumBytes_lower _ _ Hm) as [_ Hin].
    specialize (Hin key (newEntry c v ttl now) len).
    rewrite Z.add_0_l in Hin. apply Hin; [|exact Hlen].
    apply JsMapFacts.get_In. apply insert_get. }
  destruct (Z.le_gt_cases m (maxMemory c)) as [Hle|Hgt].
  - exists (insert c key v ttl now). split; [|split; [|split]].
    + intros fuel _. unfold set, checkMemoryLimits.
      unfold estimateMemoryUsage. rewrite Hm.
      apply evictWhileOver_under. now rewrite Emem.
    + left. exists m. split; [exact Hm|now rewrite Emem].
    + reflexivity.
    + intros len Hlen Hover. specialize (Hentry len Hlen). lia.
  - assert (~ In "" (JsMap.keys (store (insert c key v ttl now)))) as Hk'.
    { intros Hin. apply insert_keys in Hin.
      destruct Hin; [congruence|contradiction]. }
    destruct (@evictWhileOver_drains (S (List.length (store c))) m
                (insert c key v ttl now) Wi Hk')
      as (c' & R & Hs & W' & _); [now rewrite Emem|apply insert_length|].
    exists c'. split; [|split; [|split]].
    + intros fuel Hfuel. unfold set, checkMemoryLimits.
      unfold estimateMemoryUsage. rewrite Hm.
      destruct (@evictWhileOver_drains fuel m (insert c key v ttl now) Wi Hk')
        as (c'' & R' & Hs' & _);
        [now rewrite Emem|pose proof (insert_length c key v ttl now); lia|].
      rewrite R'. f_equal.
      (* both runs have fuel to spare, hence the same result *)
      clear - R R' Hfuel.
      assert (forall f1 f2 m c r,
                evictWhileOver f1 m c = Returned r -> (f1 <= f2)%nat ->
                evictWhileOver f2 m c = Returned r) as Hmono.
      { induction f1 as [|f1 IH]; intros f2 m0 c0 r H Hle; simpl in H.
        - destruct f2; simpl; destruct (_ && _); congruence.
        - destruct f2 as [|f2]; [lia|]. simpl.
          destruct (_ && _); [|exact H]. apply IH; [exact H|lia]. }
      apply (Hmono _ fuel) in R; [congruence|lia].
    + right. exact Hs.
    + intros m' Hm' Hle. unfold estimateMemoryUsage in Hm'. rewrite Hm in Hm'.
      injection Hm' as <-. lia.
    + intros _ _ _. exact Hs.
Qed.

Lemma smallCache_wf : wf smallCache.
Proof.
  constructor; simpl.
  - repeat constructor. intros [].
  - repeat constructor. intros [].
  - tauto.
  - discriminate.
Defined.

Lemma set_enforces_memory_limit_witness :
  exists c',
    (forall fuel, (1 < fuel)%nat ->
       set fuel smallCache "b" (JStr "0123456789") (Some 0) 7 = Returned c')
    /\ ((exists m, estimateMemoryUsage c' = Some m /\ m <= maxMemory c')
        \/ store c' = [])
    /\ (forall m,
          estimateMemoryUsage (insert smallCache "b" (JStr "0123456789") (Some 0) 7)
          = Some m ->
          m <= 100 -> c' = insert smallCache "b" (JStr "0123456789") (Some 0) 7)
    /\ (forall len, stringifyLength (JStr "0123456789") = Some len ->
          100 < entryBytes "b" len -> store c' = []).
Proof.
  apply (@set_enforces_memory_limit smallCache "b" (JStr "0123456789")
           (Some 0) 7 smallCache_wf).
  - discriminate.
  - simpl. intros [H|[]]. discriminate.
  - discriminate.
  - repeat constructor. discriminate.
Defined.

(** C1, refuted as stated: on a cache of [maxMemory = 10], [set('k', 'v')]
    (estimate 72 bytes) returns with the table emptied; the single entry is
    not retained. *)
Lemma set_oversized_entry_is_evicted :
  exists c',
    (c0 <- constructor (mkConfig None (Some 10) None None None) ;;
     set 1 c0 "k" (JStr "v") None 1000) = Returned c'
    /\ store c' = [] /\ evictions c' = 1
    /\ fst (get c' "k" 1000) = JNull.
Proof. eexists. split; [vm_compute; reflexivity|]. repeat split. Qed.

(** The estimate is not taken again inside the loop: one entry too many
    for the limit empties the whole table, although evicting one entry would
    have been enough. *)
Lemma set_over_limit_empties_table :
  exists c',
    set 2 smallCache "b" (JStr "0123456789") (Some 0) 7 = Returned c'
    /\ estimateMemoryUsage (insert smallCache "b" (JStr "0123456789") (Some 0) 7)
       = Some 162
    /\ store c' = [] /\ evictions c' = 2.
Proof. eexists. split; [vm_compute; reflexivity|]. repeat split. Qed.

(** A loop whose [evictOne] leaves the cache as it is never ends. *)
Lemma evictWhileOver_stuck fuel m c :
  maxMemory c < m -> store c <> [] -> evictOne c = c ->
  evictWhileOver fuel m c = OutOfFuel.
Proof.
  intros Hm Hne Hstuck. induction fuel as [|fuel IH]; simpl.
  - destruct (Z.gtb_spec m (maxMemory c)); [|lia].
    destruct (store c); [congruence|reflexivity].
  - destruct (Z.gtb_spec m (maxMemory c)); [|lia].
    destruct (store c) eqn:E; [congruence|]. simpl. rewrite Hstuck. exact IH.
Qed.

(** With the empty key as the only candidate the loop of
    [checkMemoryLimits] makes no progress: no amount of fuel lets [set]
    return. *)
Lemma set_empty_key_over_limit_diverges fuel :
  (c0 <- constructor (mkConfig None (Some 10) None None None) ;;
   set fuel c0 "" (JStr "v") None 1000) = OutOfFuel.
Proof.
  unfold constructor, bind, set, checkMemoryLimits.
  set (ci := insert _ _ _ _ _).
  replace (estimateMemoryUsage ci) with (Some 70) by (vm_compute; reflexivity).
  apply evictWhileOver_stuck.
  - reflexivity.
  - vm_compute. discriminate.
  - vm_compute. reflexivity.
Qed.

(** * Values that [JSON.stringify] cannot size *)

(** C2: [set] of a value that cannot be serialized raises.  On a cache with
    the default configuration, [set('circular', circular)] where
    [circular = { name: 'test', self: circular }] ends in the [TypeError]
    of [JSON.stringify], and [set('k', undefined)] in the [TypeError] of
    reading [length] of [undefined]; in both cases the entry is already in
    the table when the error is raised. *)
Theorem set_unserializable_value_throws fuel now :
  (exists c',
     (c0 <- constructor emptyConfig ;;
      set fuel c0 "circular" (JObj [("name", JStr "test"); ("self", JCyclic)])
        None now) = Thrown c'
     /\ JsMap.keys (store c') = ["circular"]%list)
  /\ (exists c',
        (c0 <- constructor emptyConfig ;;
         set fuel c0 "k" JUndefined None now) = Thrown c'
        /\ JsMap.keys (store c') = ["k"]%list).
Proof.
  split; eexists; (split; [reflexivity|]); reflexivity.
Qed.

(** A single unserializable value in the table makes every later [set]
    raise, whatever is being set. *)
Lemma set_throws_after_unserializable fuel c key v ttl now k e :
  In (k, e) (store (insert c key v ttl now)) ->
  ~ serializable (value e) ->
  set fuel c key v ttl now = Thrown (insert c key v ttl now).
Proof.
  intros Hin Hbad. unfold set, checkMemoryLimits, estimateMemoryUsage.
  assert (forall m acc, In (k, e) m -> sumBytes m acc = None) as H.
  { induction m as [|[k' e'] m IH]; intros acc Hm; simpl in *; [contradiction|].
    destruct Hm as [E|I].
    - injection E as -> ->. unfold serializable in Hbad.
      destruct (stringifyLength (value e)); [|reflexivity].
      exfalso. apply Hbad. discriminate.
    - destruct (stringifyLength (value e')); [now apply IH|reflexivity]. }
  now rewrite (H _ 0 Hin).
Qed.

(** * The entry bound *)

(** C3: the entry bound is exceeded through the empty key.  With
    [maxSize = 1], [set('', 'value')] followed by [set('a', 'value')]
    returns with two entries in the table and no eviction counted:
    [evictOne] finds the empty key as its victim and takes it for no
    victim. *)
Theorem capacity_exceeded_with_empty_key fuel t1 t2 :
  exists c2,
    (c0 <- constructor (mkConfig (Some 1) None None None None) ;;
     c1 <- set fuel c0 "" (JStr "value") None t1 ;;
     set fuel c1 "a" (JStr "value") None t2) = Returned c2
    /\ JsMap.keys (store c2) = [""; "a"]%list
    /\ size c2 = 2 /\ maxSize c2 = 1 /\ evictions c2 = 0.
Proof.
  unfold constructor. unfold bind at 1.
  rewrite set_within_limit by (vm_compute; reflexivity). unfold bind at 1.
  rewrite set_within_limit by (vm_compute; reflexivity).
  eexists. split; [reflexivity|]. repeat split.
Qed.

(** With a capacity of at least one entry and no empty key, every run of
    [set] calls that returns leaves the table within the capacity. *)
Lemma runSets_capacity fuel calls : forall c c',
  wf c -> 1 <= maxSize c -> ~ In "" (JsMap.keys (store c)) ->
  size c <= maxSize c ->
  Forall (fun call => fst (fst (fst call)) <> "") calls ->
  runSets fuel calls c = Returned c' ->
  size c' <= maxSize c /\ maxSize c' = maxSize c.
Proof.
  induction calls as [|[[[key v] ttl] now] calls IH]; intros c c' W Hn Hk Hsz Hkeys H;
    simpl in H.
  - injection H as <-. split; [exact Hsz|reflexivity].
  - inversion Hkeys as [|? ? Hkey Hrest]; subst. simpl in Hkey.
    destruct (set fuel c key v ttl now) as [c1| |] eqn:E; simpl in H;
      try discriminate.
    apply set_capacity in E; auto.
    destruct E as (W1 & Hk1 & Hsz1 & Emax).
    destruct (IH c1 c' W1) as [Hb He]; auto; lia.
Qed.

(** * Construction *)

(** C4, refuted as stated: [new MemoryCache({ maxSize: -1 })] returns a
    cache, and the calls made on it later return as well; each [set] of a
    new key first evicts what the table holds. *)
Lemma constructor_accepts_negative_maxSize :
  exists c0 c1 c2,
    constructor (mkConfig (Some (-1)) None None None None) = Returned c0
    /\ maxSize c0 = -1
    /\ set 0 c0 "a" (JStr "x") None 1000 = Returned c1
    /\ JsMap.keys (store c1) = ["a"]%list
    /\ set 0 c1 "b" (JStr "y") None 1001 = Returned c2
    /\ JsMap.keys (store c2) = ["b"]%list
    /\ fst (get c2 "b" 1002) = JStr "y".
Proof.
  do 3 eexists. split; [reflexivity|]. split; [reflexivity|].
  split; [vm_compute; reflexivity|]. split; [reflexivity|].
  split; [vm_compute; reflexivity|]. split; reflexivity.
Qed.

(** * Expired entries that are still in the table *)

Lemma isExpired_passed e t now :
  expiresAt e = Some t -> t <> 0 -> t < now -> isExpired e now = true.
Proof.
  intros E Hnz Hlt. unfold isExpired. rewrite E.
  destruct (Z.eqb_spec t 0); [contradiction|].
  destruct (Z.gtb_spec now t); [reflexivity|lia].
Qed.

(** C5 (as the code has it): an entry whose [expiresAt] has passed and
    which is still in the table is absent for [get] and [has], which remove
    it and count a miss, but [size] counts it and [keys] lists it. *)
Theorem expired_entry_observed c key e t now :
  wf c ->
  JsMap.get (store c) key = Some e ->
  expiresAt e = Some t -> t <> 0 -> t < now ->
  fst (get c key now) = JNull
  /\ fst (has c key now) = false
  /\ misses (snd (get c key now)) = misses c + 1
  /\ ~ In key (JsMap.keys (store (snd (get c key now))))
  /\ size c = size (snd (get c key now)) + 1
  /\ exists ks, keys c None = Some ks /\ In key ks.
Proof.
  intros W G E Hnz Hlt. pose proof (@isExpired_passed e t now E Hnz Hlt) as X.
  assert (In key (JsMap.keys (store c))) as Hin.
  { apply JsMapFacts.get_In in G. apply (in_map fst) in G. exact G. }
  unfold has, get. rewrite G, X. simpl.
  repeat split.
  - rewrite JsMapFacts.In_keys_delete. tauto.
  - unfold size, JsMap.size. simpl.
    rewrite <- (@JsMapFacts.length_delete_present _ (store c) key (wf_store_nodup W) Hin). lia.
  - exists (JsMap.keys (store c)). split; [reflexivity|exact Hin].
Qed.

Lemma lruCache_wf : wf lruCache.
Proof.
  constructor; simpl.
  - repeat constructor; simpl; intuition discriminate.
  - repeat constructor; simpl; intuition discriminate.
  - tauto.
  - discriminate.
Defined.

Lemma fifoCache_wf : wf fifoCache.
Proof.
  constructor; simpl.
  - repeat constructor; simpl; intuition discriminate.
  - constructor.
  - discriminate.
  - reflexivity.
Defined.

Lemma expired_entry_observed_witness :
  fst (get lruCache "b" 51) = JNull
  /\ fst (has lruCache "b" 51) = false
  /\ misses (snd (get lruCache "b" 51)) = misses lruCache + 1
  /\ ~ In "b" (JsMap.keys (store (snd (get lruCache "b" 51))))
  /\ size lruCache = size (snd (get lruCache "b" 51)) + 1
  /\ exists ks, keys lruCache None = Some ks /\ In "b" ks.
Proof.
  apply (@expired_entry_observed lruCache "b"
           (mkEntry JNull 6 6 (Some 50) (Some 44)) 50 51 lruCache_wf).
  - reflexivity.
  - reflexivity.
  - discriminate.
  - reflexivity.
Defined.

(** C5, refuted as stated: an entry set at time 1000 with a TTL of 10 ms
    and not read since is, at any later time, still counted by [size] and
    listed by [keys], while [get] at time 2000 returns [null]. *)
Lemma expired_entry_still_counted_and_listed :
  exists c1 e,
    (c0 <- constructor emptyConfig ;;
     set 0 c0 "k" (JStr "v") (Some 10) 1000) = Returned c1
    /\ JsMap.get (store c1) "k" = Some e
    /\ expiresAt e = Some 1010 /\ isExpired e 2000 = true
    /\ size c1 = 1
    /\ keys c1 None = Some ["k"]%list
    /\ keys c1 (Some "k*") = Some ["k"]%list
    /\ fst (get c1 "k" 2000) = JNull.
Proof.
  do 2 eexists. split; [vm_compute; reflexivity|].
  split; [reflexivity|]. repeat split.
Qed.

(** * Victim selection *)

Lemma evictOne_victim c k :
  In k (JsMap.keys (store c)) -> ~ In k (JsMap.keys (store (evictOne c))) ->
  k = keyToEvict c /\ keyToEvict c <> "".
Proof.
  intros Hin Hout. destruct (evictOne_cases c) as [E|(_ & Hne & E)].
  - rewrite E in Hout. contradiction.
  - rewrite E in Hout. simpl in Hout. split; [|exact Hne].
    rewrite JsMapFacts.In_keys_delete in Hout.
    destruct (string_dec k (keyToEvict c)); [assumption|tauto].
Qed.

Lemma get_hit c key now e :
  JsMap.get (store c) key = Some e -> isExpired e now = false ->
  get c key now = (value e, recordHit c key e now).
Proof. intros G X. unfold get. now rewrite G, X. Qed.

Lemma set_hit_check t1 t4 :
  t4 <= t1 + 3600000 -> negb (t1 + 3600000 =? 0) && (t4 >? t1 + 3600000) = false.
Proof.
  intros H. destruct (Z.gtb_spec t4 (t1 + 3600000)); [lia|].
  apply andb_false_r.
Qed.

(** C6: under LRU the key that [evictOne] removes carries the smallest
    recorded order index; and with [maxSize = 3], after [k1], [k2], [k3]
    are set, [k1] is read (before it expires) and [k4] is set, the table
    holds [k1], [k3], [k4]: the one eviction removed [k2]. *)
Theorem lru_evicts_smallest_order_index :
  (forall c k,
     evictionPolicy c = lru ->
     In k (JsMap.keys (store c)) ->
     ~ In k (JsMap.keys (store (evictOne c))) ->
     exists i, In (k, i) (accessOrder c)
               /\ forall k' i', In (k', i') (accessOrder c) -> i <= i')
  /\ (forall fuel t1 t2 t3 t4 t5,
        t4 <= t1 + 3600000 ->
        exists c5,
          evictionScenario lru fuel t1 t2 t3 t4 t5 = Returned c5
          /\ JsMap.keys (store c5) = ["k1"; "k3"; "k4"]%list
          /\ evictions c5 = 1).
Proof.
  split.
  - intros c k P Hin Hout.
    destruct (@evictOne_victim c k Hin Hout) as [-> Hne].
    unfold keyToEvict in *. rewrite P in *.
    destruct (accessOrder c) as [|p a] eqn:A; [now elim Hne|].
    destruct (@scanOldest_spec Z (fun accessTime => accessTime) (p :: a))
      as [i [Hi Hmin]]; [discriminate|].
    exists i. split; [exact Hi|]. intros k' i' H'. apply (Hmin (k', i') H').
  - intros fuel t1 t2 t3 t4 t5 H.
    unfold evictionScenario, constructor. unfold bind at 1.
    rewrite set_within_limit by (vm_compute; reflexivity). unfold bind at 1.
    rewrite set_within_limit by (vm_compute; reflexivity). unfold bind at 1.
    rewrite set_within_limit by (vm_compute; reflexivity). unfold bind at 1.
    match goal with
    | |- context [get ?c3 "k1" t4] =>
        rewrite (@get_hit c3 "k1" t4
                   (mkEntry (JStr "value1") t1 t1 (Some (t1 + 3600000))
                      (Some 3600000)))
          by (try (vm_compute; reflexivity); now apply set_hit_check)
    end.
    cbv beta iota delta [snd].
    rewrite set_within_limit by (vm_compute; reflexivity).
    eexists. split; [reflexivity|]. split; vm_compute; reflexivity.
Qed.

Lemma lru_evicts_smallest_order_index_witness :
  (exists i, In ("b", i) (accessOrder lruCache)
             /\ forall k' i', In (k', i') (accessOrder lruCache) -> i <= i')
  /\ exists c5,
       evictionScenario lru 0 1000 1001 1002 1003 1004 = Returned c5
       /\ JsMap.keys (store c5) = ["k1"; "k3"; "k4"]%list
       /\ evictions c5 = 1.
Proof.
  split.
  - apply (proj1 lru_evicts_smallest_order_index lruCache "b").
    + reflexivity.
    + simpl. auto.
    + simpl. intros [H|[]]. discriminate.
  - apply (proj2 lru_evicts_smallest_order_index 0%nat 1000 1001 1002 1003 1004).
    vm_compute. discriminate.
Defined.

(** The victim search reads the keys and the ranks only. *)
Lemma scan_map (V : Type) (rank : V -> Z) (m : JsMap.t V) acc :
  fold_left (scanStep rank) m acc
  = fold_left (scanStep (fun r : Z => r))
      (map (fun kv => (fst kv, rank (snd kv))) m) acc.
Proof.
  revert acc. induction m as [|kv m IH]; intros acc; simpl; [reflexivity|].
  rewrite IH. reflexivity.
Qed.

Lemma keyToEvict_fifo c :
  evictionPolicy c = fifo ->
  keyToEvict c = snd (scanOldest (fun r : Z => r) (ranking c)).
Proof.
  intros P. unfold keyToEvict, scanOldest, ranking. rewrite P.
  now rewrite scan_map.
Qed.

(** Overwriting an entry in place with one of the same creation time
    leaves the ranking as it is. *)
Lemma ranking_set_same (m : JsMap.t CacheEntry) key e e' :
  JsMap.get m key = Some e -> createdAt e' = createdAt e ->
  map (fun kv => (fst kv, createdAt (snd kv))) (JsMap.set m key e')
  = map (fun kv => (fst kv, createdAt (snd kv))) m.
Proof.
  intros G C. induction m as [|[k0 e0] m IH]; simpl in *; [discriminate|].
  destruct (String.eqb_spec k0 key) as [->|Hne]; simpl.
  - injection G as ->. now rewrite C.
  - now rewrite IH.
Qed.

Lemma ranking_delete (m : JsMap.t CacheEntry) key :
  map (fun kv => (fst kv, createdAt (snd kv))) (JsMap.delete m key)
  = JsMap.delete (map (fun kv => (fst kv, createdAt (snd kv))) m) key.
Proof.
  unfold JsMap.delete. induction m as [|[k0 e0] m IH]; simpl; [reflexivity|].
  destruct (String.eqb k0 key); simpl; now rewrite IH.
Qed.

Lemma recordHit_store c key e now :
  store (recordHit c key e now)
  = JsMap.set (store c) key
      (mkEntry (value e) (createdAt e) now (expiresAt e) (ttl e)).
Proof. unfold recordHit. simpl. now destruct (evictionPolicy c). Qed.

(** What a read does to the ranking: nothing, unless it removes the entry
    it finds expired. *)
Lemma get_ranking c key now :
  ranking (snd (get c key now))
  = match JsMap.get (store c) key with
    | Some e =>
        if isExpired e now then JsMap.delete (ranking c) key else ranking c
    | None => ranking c
    end.
Proof.
  unfold get, ranking. destruct (JsMap.get (store c) key) as [e|] eqn:G.
  - destruct (isExpired e now); cbn [snd].
    + apply ranking_delete.
    + rewrite recordHit_store. now apply ranking_set_same with (e := e).
  - reflexivity.
Qed.

(** C7: under FIFO the key that [evictOne] removes has the smallest
    [createdAt]; a read leaves every key with its creation time and its
    place, and takes out of the ranking only the entry it finds expired,
    so that a read of a live entry leaves the next victim as it was; and
    with [maxSize = 3],
    after [k1], [k2], [k3] are set in this order of time, [k1] is read
    (before it expires) and [k4] is set, the table holds [k2], [k3], [k4]:
    the one eviction removed [k1]. *)
Theorem fifo_evicts_smallest_createdAt :
  (forall c k,
     evictionPolicy c = fifo ->
     In k (JsMap.keys (store c)) ->
     ~ In k (JsMap.keys (store (evictOne c))) ->
     exists e, In (k, e) (store c)
               /\ forall k' e', In (k', e') (store c) ->
                    createdAt e <= createdAt e')
  /\ (forall c key now,
        ranking (snd (get c key now))
        = match JsMap.get (store c) key with
          | Some e =>
              if isExpired e now then JsMap.delete (ranking c) key
              else ranking c
          | None => ranking c
          end)
  /\ (forall c key now,
        evictionPolicy c = fifo ->
        (forall e, JsMap.get (store c) key = Some e -> isExpired e now = false) ->
        keyToEvict (snd (get c key now)) = keyToEvict c)
  /\ (forall fuel t1 t2 t3 t4 t5,
        t1 <= t2 -> t1 <= t3 -> t4 <= t1 + 3600000 ->
        exists c5,
          evictionScenario fifo fuel t1 t2 t3 t4 t5 = Returned c5
          /\ JsMap.keys (store c5) = ["k2"; "k3"; "k4"]%list
          /\ evictions c5 = 1).
Proof.
  split; [|split; [exact get_ranking|split]].
  - intros c k P Hin Hout.
    destruct (@evictOne_victim c k Hin Hout) as [-> Hne].
    unfold keyToEvict in *. rewrite P in *.
    destruct (store c) as [|p s] eqn:S; [now elim Hne|].
    destruct (@scanOldest_spec CacheEntry createdAt (p :: s))
      as [e [He Hmin]]; [discriminate|].
    exists e. split; [exact He|]. intros k' e' H'. apply (Hmin (k', e') H').
  - intros c key now P Hlive.
    assert (ranking (snd (get c key now)) = ranking c) as R.
    { rewrite get_ranking. destruct (JsMap.get (store c) key) as [e|];
        [|reflexivity]. now rewrite (Hlive e eq_refl). }
    rewrite !keyToEvict_fifo, R; [reflexivity|exact P|].
    unfold get. destruct (JsMap.get (store c) key) as [e|]; [|exact P].
    destruct (isExpired e now); simpl; [exact P|].
    unfold recordHit. simpl. rewrite P. exact P.
  - intros fuel t1 t2 t3 t4 t5 H12 H13 H.
    unfold evictionScenario, constructor. unfold bind at 1.
    rewrite set_within_limit by (vm_compute; reflexivity). unfold bind at 1.
    rewrite set_within_limit by (vm_compute; reflexivity). unfold bind at 1.
    rewrite set_within_limit by (vm_compute; reflexivity). unfold bind at 1.
    match goal with
    | |- context [get ?c3 "k1" t4] =>
        rewrite (@get_hit c3 "k1" t4
                   (mkEntry (JStr "value1") t1 t1 (Some (t1 + 3600000))
                      (Some 3600000)))
          by (try (vm_compute; reflexivity); now apply set_hit_check)
    end.
    cbv beta iota delta [snd].
    match goal with
    | |- context [set fuel ?c4 "k4" ?v None t5] =>
        assert (keyToEvict c4 = "k1") as K
    end.
    { rewrite keyToEvict_fifo by reflexivity.
      unfold ranking, scanOldest. rewrite recordHit_store. cbn.
      destruct (Z.ltb_spec t2 t1); [lia|].
      unfold scanStep. cbn.
      destruct (Z.ltb_spec t3 t1); [lia|]. reflexivity. }
    match goal with
    | |- context [set fuel ?c4 "k4" ?v None t5] =>
        assert (insert c4 "k4" v None t5
                = withStore
                    (withEvictions
                       (withAccessOrder
                          (withStore c4 (JsMap.delete (store c4) "k1"))
                          (JsMap.delete (accessOrder c4) "k1"))
                       (evictions c4 + 1))
                    (JsMap.set (JsMap.delete (store c4) "k1") "k4"
                       (newEntry c4 v None t5))) as I
    end.
    { rewrite insert_unfold. cbv zeta.
      match goal with
      | |- context [if ?b then _ else _] =>
          replace b with true by (vm_compute; reflexivity)
      end.
      unfold evictOne.
      match goal with
      | |- context [if ?b then _ else _] =>
          replace b with false by (vm_compute; reflexivity)
      end.
      rewrite K. reflexivity. }
    rewrite set_within_limit by (rewrite I; vm_compute; reflexivity).
    rewrite I. eexists. split; [reflexivity|]. split; vm_compute; reflexivity.
Qed.

Lemma fifo_evicts_smallest_createdAt_witness :
  (exists e, In ("a", e) (store fifoCache)
             /\ forall k' e', In (k', e') (store fifoCache) ->
                  createdAt e <= createdAt e')
  /\ keyToEvict (snd (get fifoCache "a" 10)) = keyToEvict fifoCache
  /\ exists c5,
       evictionScenario fifo 0 1000 1001 1002 1003 1004 = Returned c5
       /\ JsMap.keys (store c5) = ["k2"; "k3"; "k4"]%list
       /\ evictions c5 = 1.
Proof.
  split; [|split].
  - apply (proj1 fifo_evicts_smallest_createdAt fifoCache "a").
    + reflexivity.
    + simpl. auto.
    + simpl. intros [H|[]]. discriminate.
  - apply (proj1 (proj2 (proj2 fifo_evicts_smallest_createdAt))
             fifoCache "a" 10).
    + reflexivity.
    + simpl. intros e H. injection H as <-. reflexivity.
  - apply (proj2 (proj2 (proj2 fifo_evicts_smallest_createdAt))
             0%nat 1000 1001 1002 1003 1004);
      vm_compute; discriminate.
Defined.

(** * Entries without expiry *)

Lemma permanent_not_expired e now : expiresAt e = None -> isExpired e now = false.
Proof. unfold isExpired. now intros ->. Qed.

Lemma permanent_get c k v key now :
  permanent c k v -> permanent (snd (get c key now)) k v.
Proof.
  intros (e & G & X & Ev). unfold get.
  destruct (String.eqb_spec key k) as [->|Hne].
  - rewrite G, (permanent_not_expired e now X). cbn [snd].
    exists (mkEntry (value e) (createdAt e) now (expiresAt e) (ttl e)).
    rewrite recordHit_store, JsMapFacts.get_set_same. auto.
  - destruct (JsMap.get (store c) key) as [e'|] eqn:G'.
    + destruct (isExpired e' now); cbn [snd].
      * exists e. simpl. rewrite JsMapFacts.get_delete_other by exact Hne. auto.
      * exists e. rewrite recordHit_store.
        rewrite JsMapFacts.get_set_other by exact Hne. auto.
    + exists e. simpl. auto.
Qed.

Lemma cleanup_fold_permanent now k v entries : forall acc : Z * MemoryCache,
  permanent (snd acc) k v ->
  (forall kv, In kv entries -> fst kv = k -> isExpired (snd kv) now = false) ->
  permanent (snd (fold_left (cleanupStep now) entries acc)) k v.
Proof.
  induction entries as [|kv entries IH]; intros acc P Hlive; simpl.
  - exact P.
  - apply IH; [|intros kv' Hin; apply Hlive; now right].
    unfold cleanupStep. destruct (isExpired (snd kv) now) eqn:Xkv; [|exact P].
    cbn [snd]. destruct P as (e0 & G0 & X0 & Ev0). exists e0. simpl.
    rewrite JsMapFacts.get_delete_other; [auto|].
    intros E. rewrite (Hlive kv (or_introl eq_refl) E) in Xkv. discriminate.
Qed.

Lemma permanent_cleanup c k v now :
  wf c -> permanent c k v -> permanent (snd (cleanup c now)) k v.
Proof.
  intros W P. unfold cleanup. apply cleanup_fold_permanent; [exact P|].
  destruct P as (e & G & X & Ev).
  intros [k' e'] Hin E. simpl in *. subst k'.
  rewrite (@JsMapFacts.In_get_NoDup _ (store c) k e' (wf_store_nodup W) Hin) in G.
  injection G as ->. now apply permanent_not_expired.
Qed.

Lemma wf_touch c t : wf c -> wf (touch c t).
Proof.
  destruct t; simpl; intros W.
  - now apply wf_get.
  - unfold has. simpl. now apply wf_get.
  - now apply wf_cleanup.
Qed.

Lemma permanent_runTouches ts : forall c k v,
  wf c -> permanent c k v ->
  wf (runTouches ts c) /\ permanent (runTouches ts c) k v.
Proof.
  unfold runTouches. induction ts as [|t ts IH]; intros c k v W P; simpl.
  - now split.
  - apply IH; [now apply wf_touch|].
    destruct t; simpl.
    + now apply permanent_get.
    + unfold has. simpl. now apply permanent_get.
    + now apply permanent_cleanup.
Qed.

(** An entry that [set] stores with a TTL of zero or below has no
    [expiresAt]; as long as it is in the table when [set] returns, whatever
    reads and sweeps follow, at whatever times, [get] returns its value
    and [cleanup] leaves it in the table. *)
Lemma nonpositive_ttl_never_expires fuel c k v ttl t0 c1 :
  wf c -> ttl <= 0 ->
  set fuel c k v (Some ttl) t0 = Returned c1 ->
  In k (JsMap.keys (store c1)) ->
  permanent c1 k v
  /\ forall touches now,
       fst (get (runTouches touches c1) k now) = v
       /\ In k (JsMap.keys (store (snd (get (runTouches touches c1) k now))))
       /\ In k (JsMap.keys (store (snd (cleanup (runTouches touches c1) now)))).
Proof.
  intros W Httl Hset Hin.
  pose proof (@wf_set fuel c k v (Some ttl) t0 c1 Hset W) as W1.
  assert (permanent c1 k v) as P.
  { apply set_returned in Hset; [|exact W]. destruct Hset as (_ & _ & K & _).
    destruct (K k Hin) as [_ G]. rewrite insert_get in G.
    exists (newEntry c v (Some ttl) t0). split; [exact G|]. split; [|reflexivity].
    unfold newEntry. simpl. destruct (Z.gtb_spec ttl 0); [lia|reflexivity]. }
  split; [exact P|]. intros touches now.
  destruct (@permanent_runTouches touches c1 k v W1 P) as [Wt Pt].
  assert (forall c', permanent c' k v -> In k (JsMap.keys (store c'))) as Hkeys.
  { intros c' (e & G & _). apply JsMapFacts.get_In in G.
    apply (in_map fst) in G. exact G. }
  split; [|split].
  - destruct Pt as (e & G & X & Ev). unfold get.
    rewrite G, (permanent_not_expired e now X). cbn [fst]. exact Ev.
  - apply Hkeys. now apply permanent_get.
  - apply Hkeys. now apply permanent_cleanup.
Qed.

Lemma nonpositive_ttl_never_expires_witness :
  (permanent (insert lruCache "a" (JStr "y") (Some 0) 20) "a" (JStr "y")
   /\ forall touches now,
        fst (get (runTouches touches
                    (insert lruCache "a" (JStr "y") (Some 0) 20)) "a" now)
        = JStr "y"
        /\ In "a" (JsMap.keys (store (snd (get (runTouches touches
                       (insert lruCache "a" (JStr "y") (Some 0) 20)) "a" now))))
        /\ In "a" (JsMap.keys (store (snd (cleanup (runTouches touches
                       (insert lruCache "a" (JStr "y") (Some 0) 20)) now)))))
  /\ (permanent (insert lruCache "a" (JStr "y") (Some (-1)) 20) "a" (JStr "y")
      /\ forall touches now,
           fst (get (runTouches touches
                       (insert lruCache "a" (JStr "y") (Some (-1)) 20)) "a" now)
           = JStr "y"
           /\ In "a" (JsMap.keys (store (snd (get (runTouches touches
                          (insert lruCache "a" (JStr "y") (Some (-1)) 20)) "a" now))))
           /\ In "a" (JsMap.keys (store (snd (cleanup (runTouches touches
                          (insert lruCache "a" (JStr "y") (Some (-1)) 20)) now))))).
Proof.
  split.
  - apply (@nonpositive_ttl_never_expires 0 lruCache "a" (JStr "y") 0 20
             (insert lruCache "a" (JStr "y") (Some 0) 20) lruCache_wf).
    + discriminate.
    + reflexivity.
    + simpl. auto.
  - apply (@nonpositive_ttl_never_expires 0 lruCache "a" (JStr "y") (-1) 20
             (insert lruCache "a" (JStr "y") (Some (-1)) 20) lruCache_wf).
    + discriminate.
    + reflexivity.
    + simpl. auto.
Defined.

(** * Stored [null] *)

(** C10: a live entry whose value is [null] is read as [null], which is
    also what a missing key reads as; the read counts as a hit and, under
    LRU, records a fresh order index; [has] makes the same read and
    answers [false] while the entry stays in the table. *)
Theorem get_null_value_is_a_hit c k e now :
  JsMap.get (store c) k = Some e -> value e = JNull ->
  isExpired e now = false ->
  fst (get c k now) = JNull
  /\ (forall c' k', JsMap.get (store c') k' = None ->
        fst (get c' k' now) = fst (get c k now))
  /\ hits (snd (get c k now)) = hits c + 1
  /\ misses (snd (get c k now)) = misses c
  /\ (evictionPolicy c = lru ->
        JsMap.get (accessOrder (snd (get c k now))) k = Some (nextAccessTime c)
        /\ nextAccessTime (snd (get c k now)) = nextAccessTime c + 1)
  /\ fst (has c k now) = false
  /\ snd (has c k now) = snd (get c k now)
  /\ JsMap.has (store (snd (has c k now))) k = true.
Proof.
  intros G V X. unfold has. rewrite (@get_hit c k now e G X). cbn [fst snd].
  rewrite V. split; [reflexivity|]. split.
  { intros c' k' G'. unfold get. now rewrite G'. }
  split; [|split; [|split; [|split; [|split]]]].
  - unfold recordHit. simpl. now destruct (evictionPolicy c).
  - unfold recordHit. simpl. now destruct (evictionPolicy c).
  - intros P. unfold recordHit. simpl. rewrite P. simpl.
    now rewrite JsMapFacts.get_set_same.
  - reflexivity.
  - reflexivity.
  - unfold JsMap.has. rewrite recordHit_store.
    now rewrite JsMapFacts.get_set_same.
Qed.

Lemma get_null_value_is_a_hit_witness :
  fst (get lruCache "b" 40) = JNull
  /\ (forall c' k', JsMap.get (store c') k' = None ->
        fst (get c' k' 40) = fst (get lruCache "b" 40))
  /\ hits (snd (get lruCache "b" 40)) = hits lruCache + 1
  /\ misses (snd (get lruCache "b" 40)) = misses lruCache
  /\ (evictionPolicy lruCache = lru ->
        JsMap.get (accessOrder (snd (get lruCache "b" 40))) "b"
        = Some (nextAccessTime lruCache)
        /\ nextAccessTime (snd (get lruCache "b" 40))
           = nextAccessTime lruCache + 1)
  /\ fst (has lruCache "b" 40) = false
  /\ snd (has lruCache "b" 40) = snd (get lruCache "b" 40)
  /\ JsMap.has (store (snd (has lruCache "b" 40))) "b" = true.
Proof.
  apply (@get_null_value_is_a_hit lruCache "b"
           (mkEntry JNull 6 6 (Some 50) (Some 44)) 40);
    reflexivity.
Defined.

(** * Key patterns *)

(** How the characters fall into the classes that the passes and the
    reader of the pattern text tell apart. *)
Lemma char_classes (p : ascii) :
  (if isEscapedByGlob p
   then isSyntaxChar p && negb (Ascii.eqb p "*") && negb (Ascii.eqb p "?")
   else if Ascii.eqb p "*" || Ascii.eqb p "?" then isSyntaxChar p
   else negb (isSyntaxChar p))
  && negb (Ascii.eqb "\" "*") && negb (Ascii.eqb "\" "?") = true.
Proof.
  destruct p as [[|] [|] [|] [|] [|] [|] [|] [|]]; reflexivity.
Qed.

Lemma syntax_heads (p : ascii) :
  isSyntaxChar p = false ->
  Ascii.eqb p "\" = false /\ Ascii.eqb p "*" = false /\ Ascii.eqb p "." = false
  /\ Ascii.eqb p "^" = false /\ Ascii.eqb p "$" = false.
Proof.
  destruct p as [[|] [|] [|] [|] [|] [|] [|] [|]]; cbv; intuition congruence.
Qed.

Lemma escapeRegexChars_app s1 s2 :
  escapeRegexChars (s1 ++ s2) = escapeRegexChars s1 ++ escapeRegexChars s2.
Proof.
  induction s1 as [|c s1 IH]; simpl; [reflexivity|].
  destruct (isEscapedByGlob c); simpl; now rewrite IH.
Qed.

Lemma replaceStars_app s1 s2 :
  replaceStars (s1 ++ s2) = replaceStars s1 ++ replaceStars s2.
Proof.
  induction s1 as [|c s1 IH]; simpl; [reflexivity|].
  destruct (Ascii.eqb c "*"); simpl; now rewrite IH.
Qed.

Lemma replaceQuestionMarks_app s1 s2 :
  replaceQuestionMarks (s1 ++ s2)
  = replaceQuestionMarks s1 ++ replaceQuestionMarks s2.
Proof.
  induction s1 as [|c s1 IH]; simpl; [reflexivity|].
  destruct (Ascii.eqb c "?"); simpl; now rewrite IH.
Qed.

(** The three passes act on each pattern character by itself. *)
Lemma passes_cons p pattern :
  replaceQuestionMarks (replaceStars (escapeRegexChars (String p pattern)))
  = translateChar p
    ++ replaceQuestionMarks (replaceStars (escapeRegexChars pattern)).
Proof.
  change (String p pattern) with (String p "" ++ pattern).
  rewrite escapeRegexChars_app, replaceStars_app, replaceQuestionMarks_app.
  f_equal. unfold translateChar.
  destruct p as [[|] [|] [|] [|] [|] [|] [|] [|]]; reflexivity.
Qed.

(** Reading the text that the passes produce gives the terms of the
    pattern, after whatever atom was pending. *)
Lemma parse_translated pattern : forall pending,
  parseFrom pending false
    (replaceQuestionMarks (replaceStars (escapeRegexChars pattern)) ++ "$")
  = Some (flushed pending ++ compileGlob pattern ++ [TEol])%list.
Proof.
  induction pattern as [|p pattern IH]; intros pending.
  - simpl. destruct pending; reflexivity.
  - rewrite passes_cons. unfold translateChar.
    pose proof (char_classes p) as C.
    destruct (isEscapedByGlob p) eqn:E.
    + apply andb_prop in C. destruct C as [C _].
      apply andb_prop in C. destruct C as [C _].
      apply andb_prop in C. destruct C as [C Cq].
      apply andb_prop in C. destruct C as [Csyn Cs].
      apply negb_true_iff in Cs, Cq.
      cbn [String.append parseFrom]. cbn [Ascii.eqb Bool.eqb].
      rewrite Csyn, IH. cbn [compileGlob]. rewrite Cs, Cq.
      destruct pending; reflexivity.
    + destruct (Ascii.eqb_spec p "*") as [->|Hs].
      * cbn [String.append parseFrom]. cbn [Ascii.eqb Bool.eqb isSyntaxChar].
        rewrite IH. destruct pending; reflexivity.
      * destruct (Ascii.eqb_spec p "?") as [->|Hq].
        -- cbn [String.append parseFrom]. cbn [Ascii.eqb Bool.eqb].
           rewrite IH. destruct pending; reflexivity.
        -- simpl in C. apply andb_prop in C. destruct C as [C _].
           apply andb_prop in C. destruct C as [C _].
           apply negb_true_iff in C.
           destruct (syntax_heads p C) as (H1 & H2 & H3 & H4 & H5).
           cbn [String.append parseFrom].
           rewrite H1, H2, H3, H4, H5, C, IH. cbn [compileGlob].
           destruct (Ascii.eqb_spec p "*"); [contradiction|].
           destruct (Ascii.eqb_spec p "?"); [contradiction|].
           destruct pending; reflexivity.
Qed.

(** [new RegExp] accepts every text that [globToRegex] builds. *)
Lemma globToRegex_compiles pattern :
  globToRegex pattern = Some (TBol :: compileGlob pattern ++ [TEol])%list.
Proof.
  unfold globToRegex, newRegExp, globToRegexSource.
  cbn [String.append parseFrom]. cbn [Ascii.eqb Bool.eqb isSyntaxChar].
  now rewrite parse_translated.
Qed.

Lemma searchFrom_anchored r s : searchFrom (TBol :: r) false s = false.
Proof. induction s as [|c s IH]; simpl; [reflexivity|exact IH]. Qed.

(** A pattern that starts with [^] can only match from the start of the
    key. *)
Lemma test_anchored r key : test (TBol :: r) key = matchHere r true key.
Proof.
  unfold test. destruct key as [|c key]; simpl.
  - apply orb_false_r.
  - rewrite searchFrom_anchored. apply orb_false_r.
Qed.

Lemma hasLineTerminator_cons c key :
  hasLineTerminator (String c key) = false ->
  isLineTerminator c = false /\ hasLineTerminator key = false.
Proof. unfold hasLineTerminator. simpl. apply orb_false_elim. Qed.

(** On a key without line terminators the terms of a pattern, followed by
    the end anchor, match exactly when the glob pattern does. *)
Lemma match_compiled pattern : forall atStart key,
  hasLineTerminator key = false ->
  matchHere (compileGlob pattern ++ [TEol])%list atStart key
  = globMatch pattern key.
Proof.
  induction pattern as [|p pattern IH]; intros atStart key Hkey.
  - simpl. apply andb_true_r.
  - cbn [compileGlob app]. destruct (Ascii.eqb_spec p "*") as [->|Hs].
    + cbn [globMatch]. cbn [Ascii.eqb Bool.eqb]. cbv iota.
      revert atStart. induction key as [|c key IHkey]; intros atStart.
      * cbn. rewrite IH by exact Hkey. reflexivity.
      * apply hasLineTerminator_cons in Hkey as Hck. destruct Hck as [Hc Hk].
        cbn [matchHere]. rewrite IH by exact Hkey.
        cbn [atomMatches]. rewrite Hc. cbn [negb andb].
        f_equal. exact (IHkey Hk false).
    + cbn [globMatch]. destruct (Ascii.eqb_spec p "*"); [contradiction|].
      destruct (Ascii.eqb_spec p "?") as [->|Hq].
      * destruct key as [|c key]; [reflexivity|].
        apply hasLineTerminator_cons in Hkey. destruct Hkey as [Hc Hk].
        cbn [matchHere atomMatches]. rewrite Hc, IH by exact Hk. reflexivity.
      * destruct key as [|c key]; [reflexivity|].
        apply hasLineTerminator_cons in Hkey. destruct Hkey as [Hc Hk].
        cbn [matchHere atomMatches]. rewrite IH by exact Hk.
        destruct (Ascii.eqb_spec p "?"); [contradiction|]. reflexivity.
Qed.

Lemma truthy_pattern pattern : pattern <> "" -> truthy pattern = true.
Proof. intros H. now apply truthy_iff. Qed.

(** C9 (as the code has it): [keys] never raises; for a non-empty pattern
    it returns, in table order, the keys that [test] accepts, and on a
    table whose keys hold no line terminator these are exactly the keys
    that match the whole pattern, with [*] for any run of characters, [?]
    for one character and every other character for itself; for the empty
    pattern, as for none, it returns all the keys. *)
Theorem keys_matches_glob c :
  (forall pattern, exists ks, keys c pattern = Some ks)
  /\ keys c (Some "") = Some (JsMap.keys (store c))
  /\ keys c None = Some (JsMap.keys (store c))
  /\ (forall pattern,
        pattern <> "" ->
        Forall (fun k => hasLineTerminator k = false) (JsMap.keys (store c)) ->
        keys c (Some pattern)
        = Some (filter (globMatch pattern) (JsMap.keys (store c)))).
Proof.
  split; [|split; [reflexivity|split; [reflexivity|]]].
  - intros [pattern|]; unfold keys; [|eauto].
    rewrite globToRegex_compiles. destruct (truthy pattern); eauto.
  - intros pattern Hne Hkeys. unfold keys.
    rewrite (truthy_pattern Hne), globToRegex_compiles. f_equal.
    apply filter_ext_in. intros k Hin.
    rewrite test_anchored. apply match_compiled.
    rewrite Forall_forall in Hkeys. now apply Hkeys.
Qed.

Lemma keys_matches_glob_witness :
  keys (tableOf ["user:1"; "user:2"; "post:1"; "u.(x)"]%list) (Some "user:*")
  = Some ["user:1"; "user:2"]%list
  /\ keys (tableOf ["user:1"; "user:22"; "post:1"; "u.(x)"]%list) (Some "user:?")
     = Some ["user:1"]%list
  /\ keys (tableOf ["user:1"; "user:2"; "post:1"; "u.(x)"]%list) (Some "u.(?)")
     = Some ["u.(x)"]%list.
Proof.
  split; [|split].
  - apply (proj2 (proj2 (proj2
             (keys_matches_glob
                (tableOf ["user:1"; "user:2"; "post:1"; "u.(x)"]%list))))
             "user:*").
    + discriminate.
    + repeat constructor.
  - apply (proj2 (proj2 (proj2
             (keys_matches_glob
                (tableOf ["user:1"; "user:22"; "post:1"; "u.(x)"]%list))))
             "user:?").
    + discriminate.
    + repeat constructor.
  - apply (proj2 (proj2 (proj2
             (keys_matches_glob
                (tableOf ["user:1"; "user:2"; "post:1"; "u.(x)"]%list))))
             "u.(?)").
    + discriminate.
    + repeat constructor.
Defined.

(** C9, refuted as stated: [keys('')] returns every key, although no
    non-empty key matches the empty pattern as a whole. *)
Lemma keys_empty_pattern_returns_all :
  keys (tableOf ["user:1"; "post:1"]%list) (Some "")
  = Some ["user:1"; "post:1"]%list
  /\ filter (globMatch "") ["user:1"; "post:1"]%list = []%list.
Proof. split; reflexivity. Qed.

(** The [.] of the regular expression matches no line terminator: a key
    with a line feed in the run that [*] stands for is not returned. *)
Lemma keys_star_stops_at_line_feed :
  let key := String "a" (String (ascii_of_N 10) (String "b" "")) in
  keys (tableOf [key]) (Some "a*") = Some []%list
  /\ globMatch "a*" key = true.
Proof. split; reflexivity. Qed.

(** * Further properties of [MemoryCache] *)

(** An entry under another key stays where it is when a key is written. *)
Lemma In_set_other (V : Type) (m : JsMap.t V) k v k' v' :
  k' <> k -> In (k', v') m -> In (k', v') (JsMap.set m k v).
Proof.
  intros Hne. induction m as [|[k0 v0] m IH]; simpl; [intros []|].
  destruct (String.eqb_spec k0 k) as [->|Hne0]; simpl.
  - intros [E|H]; [congruence|now right].
  - intros [E|H]; [now left|right; auto].
Qed.

(** ** Reads *)

(** What a [get] leaves alone, and the one request it counts. *)
Lemma get_fields c key now :
  hits (snd (get c key now)) + misses (snd (get c key now))
  = hits c + misses c + 1
  /\ evictions (snd (get c key now)) = evictions c
  /\ maxSize (snd (get c key now)) = maxSize c
  /\ maxMemory (snd (get c key now)) = maxMemory c
  /\ evictionPolicy (snd (get c key now)) = evictionPolicy c.
Proof.
  unfold get. destruct (JsMap.get (store c) key) as [e|].
  - destruct (isExpired e now); cbn [snd]; simpl.
    + repeat split; lia.
    + unfold recordHit. simpl.
      destruct (evictionPolicy c) eqn:P; simpl; rewrite ?P; repeat split; lia.
  - simpl. repeat split; lia.
Qed.

(** X1: every [get] counts exactly one request, as a hit when it returns
    a stored value and as a miss otherwise; it counts no eviction and leaves
    the configuration alone. *)
Theorem get_counts_one_request c key now :
  hits (snd (get c key now)) + misses (snd (get c key now))
  = hits c + misses c + 1
  /\ (JsMap.has (store (snd (get c key now))) key = true ->
        hits (snd (get c key now)) = hits c + 1)
  /\ (JsMap.has (store (snd (get c key now))) key = false ->
        misses (snd (get c key now)) = misses c + 1
        /\ fst (get c key now) = JNull)
  /\ evictions (snd (get c key now)) = evictions c
  /\ maxSize (snd (get c key now)) = maxSize c
  /\ maxMemory (snd (get c key now)) = maxMemory c
  /\ evictionPolicy (snd (get c key now)) = evictionPolicy c.
Proof.
  unfold get. destruct (JsMap.get (store c) key) as [e|] eqn:G.
  - destruct (isExpired e now); cbn [fst snd].
    + simpl.
      assert (JsMap.has (JsMap.delete (store c) key) key = false) as ->.
      { apply JsMapFacts.has_false_iff. rewrite JsMapFacts.In_keys_delete.
        tauto. }
      repeat split; try lia; try discriminate.
    + unfold JsMap.has. rewrite recordHit_store, JsMapFacts.get_set_same.
      unfold recordHit. simpl.
      destruct (evictionPolicy c) eqn:P; simpl; rewrite ?P;
        repeat split; try lia; try discriminate.
  - simpl. unfold JsMap.has. rewrite G.
    repeat split; try lia; try discriminate.
Qed.

Lemma set_returned_cases fuel c key v ttl now c1 :
  set fuel c key v ttl now = Returned c1 ->
  c1 = insert c key v ttl now \/ store c1 = [].
Proof.
  unfold set, checkMemoryLimits.
  destruct (estimateMemoryUsage _) as [m|]; [|discriminate].
  generalize (insert c key v ttl now) as ci. intros ci.
  assert (forall f c0, evictWhileOver f m c0 = Returned c1 ->
            (c1 = c0 /\ (m <= maxMemory c0 \/ store c0 = []))
            \/ (maxMemory c0 < m /\ store c1 = [])) as H.
  { induction f as [|f IH]; intros c0; simpl.
    - destruct (Z.gtb_spec m (maxMemory c0)); simpl.
      + destruct (store c0) eqn:S; simpl; [|discriminate].
        intros E. injection E as <-. left. auto.
      + intros E. injection E as <-. left. split; [reflexivity|lia].
    - destruct (Z.gtb_spec m (maxMemory c0)); simpl.
      + destruct (store c0) eqn:S; simpl.
        * intros E. injection E as <-. left. auto.
        * intros E. apply IH in E. right. split; [assumption|].
          destruct (evictOne_config c0) as (_ & E2 & _).
          destruct E as [[-> [Hle|Hs]]|[_ Hs]]; [lia|exact Hs|exact Hs].
      + intros E. injection E as <-. left. split; [reflexivity|lia]. }
  intros E. apply H in E. destruct E as [[-> _]|[_ Hs]]; auto.
Qed.

(** X2: what [set] stores is what [get] returns: when [set] returns and
    the key is in the table, a [get] of the key at any time up to the expiry
    time (any time at all for a TTL of zero or below) returns the value that
    was set, and counts a hit. *)
Theorem set_then_get_returns_value fuel c key v ttl t0 c1 now :
  set fuel c key v ttl t0 = Returned c1 ->
  In key (JsMap.keys (store c1)) ->
  effectiveTTL c ttl <= 0 \/ now <= t0 + effectiveTTL c ttl ->
  fst (get c1 key now) = v
  /\ hits (snd (get c1 key now)) = hits c1 + 1
  /\ JsMap.has (store (snd (get c1 key now))) key = true.
Proof.
  intros S Hin Hlive.
  destruct (set_returned_cases _ _ _ _ _ _ S) as [->|Hs];
    [|rewrite Hs in Hin; contradiction].
  assert (isExpired (newEntry c v ttl t0) now = false) as X.
  { unfold isExpired, newEntry, effectiveTTL in *. simpl.
    destruct (Z.gtb_spec (ttl ?? defaultTTL c) 0); [|reflexivity].
    destruct Hlive as [Hl|Hl]; [lia|].
    destruct (Z.gtb_spec now (t0 + ttl ?? defaultTTL c)); [lia|].
    apply andb_false_r. }
  rewrite (@get_hit _ key now _ (insert_get c key v ttl t0) X).
  cbn [fst snd]. split; [reflexivity|]. split.
  - unfold recordHit. simpl.
    now destruct (evictionPolicy (insert c key v ttl t0)).
  - unfold JsMap.has. now rewrite recordHit_store, JsMapFacts.get_set_same.
Qed.

Lemma set_then_get_returns_value_witness :
  fst (get (insert lruCache "c" (JStr "z") (Some 10) 100) "c" 110) = JStr "z"
  /\ hits (snd (get (insert lruCache "c" (JStr "z") (Some 10) 100) "c" 110))
     = hits (insert lruCache "c" (JStr "z") (Some 10) 100) + 1
  /\ JsMap.has
       (store (snd (get (insert lruCache "c" (JStr "z") (Some 10) 100) "c" 110)))
       "c" = true.
Proof.
  apply (@set_then_get_returns_value 0 lruCache "c" (JStr "z") (Some 10) 100
           (insert lruCache "c" (JStr "z") (Some 10) 100) 110).
  - reflexivity.
  - simpl. auto.
  - right. vm_compute. discriminate.
Defined.

(** X3: an entry set with a positive TTL is gone once the expiry time has
    passed: the first [get] after it returns [null], removes the entry from
    the table and the order index, and counts a miss. *)
Theorem set_then_get_after_expiry fuel c key v ttl t0 c1 now :
  set fuel c key v ttl t0 = Returned c1 ->
  In key (JsMap.keys (store c1)) ->
  0 < effectiveTTL c ttl ->
  t0 + effectiveTTL c ttl <> 0 ->
  t0 + effectiveTTL c ttl < now ->
  fst (get c1 key now) = JNull
  /\ ~ In key (JsMap.keys (store (snd (get c1 key now))))
  /\ ~ In key (JsMap.keys (accessOrder (snd (get c1 key now))))
  /\ misses (snd (get c1 key now)) = misses c1 + 1
  /\ hits (snd (get c1 key now)) = hits c1.
Proof.
  intros S Hin Hpos Hnz Hlate.
  destruct (set_returned_cases _ _ _ _ _ _ S) as [->|Hs];
    [|rewrite Hs in Hin; contradiction].
  assert (isExpired (newEntry c v ttl t0) now = true) as X.
  { apply isExpired_passed with (t := t0 + effectiveTTL c ttl); auto.
    unfold newEntry, effectiveTTL in *. simpl.
    destruct (Z.gtb_spec (ttl ?? defaultTTL c) 0); [reflexivity|lia]. }
  unfold get. rewrite insert_get, X. cbn [fst snd]. simpl.
  rewrite !JsMapFacts.In_keys_delete. repeat split; tauto.
Qed.

Lemma set_then_get_after_expiry_witness :
  fst (get (insert lruCache "c" (JStr "z") (Some 10) 100) "c" 111) = JNull
  /\ ~ In "c" (JsMap.keys (store
         (snd (get (insert lruCache "c" (JStr "z") (Some 10) 100) "c" 111))))
  /\ ~ In "c" (JsMap.keys (accessOrder
         (snd (get (insert lruCache "c" (JStr "z") (Some 10) 100) "c" 111))))
  /\ misses (snd (get (insert lruCache "c" (JStr "z") (Some 10) 100) "c" 111))
     = misses (insert lruCache "c" (JStr "z") (Some 10) 100) + 1
  /\ hits (snd (get (insert lruCache "c" (JStr "z") (Some 10) 100) "c" 111))
     = hits (insert lruCache "c" (JStr "z") (Some 10) 100).
Proof.
  apply (@set_then_get_after_expiry 0 lruCache "c" (JStr "z") (Some 10) 100
           (insert lruCache "c" (JStr "z") (Some 10) 100) 111).
  - reflexivity.
  - simpl. auto.
  - reflexivity.
  - discriminate.
  - reflexivity.
Defined.

(** ** Removal *)

(** X4: [delete] answers whether the key was in the table; afterwards the
    key is in neither the table nor the order index and a [get] of it
    returns [null]; every other key keeps its entry, and no counter
    moves. *)
Theorem delete_removes_only_the_key c key :
  fst (delete c key) = JsMap.has (store c) key
  /\ ~ In key (JsMap.keys (store (snd (delete c key))))
  /\ ~ In key (JsMap.keys (accessOrder (snd (delete c key))))
  /\ (forall now, fst (get (snd (delete c key)) key now) = JNull)
  /\ (forall k, k <> key ->
        JsMap.get (store (snd (delete c key))) k = JsMap.get (store c) k
        /\ JsMap.get (accessOrder (snd (delete c key))) k
           = JsMap.get (accessOrder c) k)
  /\ hits (snd (delete c key)) = hits c
  /\ misses (snd (delete c key)) = misses c
  /\ evictions (snd (delete c key)) = evictions c.
Proof.
  unfold delete. cbn [fst snd]. simpl.
  rewrite !JsMapFacts.In_keys_delete.
  repeat split; try tauto.
  - intros now. unfold get. simpl. now rewrite JsMapFacts.get_delete_same.
  - apply JsMapFacts.get_delete_other. congruence.
  - apply JsMapFacts.get_delete_other. congruence.
Qed.

Lemma remove_absent c key :
  wf c -> ~ In key (JsMap.keys (store c)) ->
  withAccessOrder (withStore c (JsMap.delete (store c) key))
    (JsMap.delete (accessOrder c) key) = c.
Proof.
  intros W Hout.
  assert (~ In key (JsMap.keys (accessOrder c))) as Hout'.
  { destruct (evictionPolicy c) eqn:P.
    - now rewrite (wf_order_lru W P).
    - rewrite (wf_order_fifo W P). intros []. }
  unfold withAccessOrder, withStore. simpl.
  rewrite !JsMapFacts.delete_absent by assumption.
  now destruct c.
Qed.

(** X5: deleting a key that the table does not hold answers [false] and
    leaves the cache exactly as it was; so does a second [delete] of the
    same key. *)
Theorem delete_absent_changes_nothing c key :
  wf c ->
  (JsMap.has (store c) key = false -> delete c key = (false, c))
  /\ delete (snd (delete c key)) key = (false, snd (delete c key)).
Proof.
  intros W.
  assert (forall c0, wf c0 -> JsMap.has (store c0) key = false ->
            delete c0 key = (false, c0)) as H.
  { intros c0 W0 Hhas. unfold delete. rewrite Hhas. f_equal.
    apply remove_absent; [exact W0|]. now apply JsMapFacts.has_false_iff. }
  split; [now apply H|]. apply H.
  - now apply wf_delete.
  - apply JsMapFacts.has_false_iff. unfold delete. simpl.
    rewrite JsMapFacts.In_keys_delete. tauto.
Qed.

Lemma delete_absent_changes_nothing_witness :
  (JsMap.has (store lruCache) "zz" = false ->
     delete lruCache "zz" = (false, lruCache))
  /\ delete (snd (delete lruCache "a")) "a"
     = (false, snd (delete lruCache "a")).
Proof.
  split.
  - apply (proj1 (@delete_absent_changes_nothing lruCache "zz" lruCache_wf)).
  - apply (proj2 (@delete_absent_changes_nothing lruCache "a" lruCache_wf)).
Defined.

(** [clear] empties the table and the order index and resets the
    counters and the order counter, and keeps the configuration and the
    timer; every [get] that follows is a miss. *)
Theorem clear_then_get_misses c key now :
  size (clear c) = 0
  /\ accessOrder (clear c) = []
  /\ fst (get (clear c) key now) = JNull
  /\ misses (snd (get (clear c) key now)) = 1
  /\ hits (snd (get (clear c) key now)) = 0
  /\ evictions (clear c) = 0
  /\ nextAccessTime (clear c) = 1
  /\ maxSize (clear c) = maxSize c
  /\ maxMemory (clear c) = maxMemory c
  /\ defaultTTL (clear c) = defaultTTL c
  /\ evictionPolicy (clear c) = evictionPolicy c
  /\ cleanupTimer (clear c) = cleanupTimer c
  /\ cleanupTimer (destroy c) = None
  /\ size (destroy c) = 0.
Proof. repeat split. Qed.

(** ** The sweep *)

Lemma remove_store c k :
  store (withAccessOrder (withStore c (JsMap.delete (store c) k))
           (JsMap.delete (accessOrder c) k))
  = JsMap.delete (store c) k.
Proof. reflexivity. Qed.

(** The loop of [cleanup], on any list of entries to visit: the count goes
    up by the number of expired entries visited, the table loses the keys
    of those entries, and nothing else changes. *)
Lemma cleanup_fold now entries : forall acc : Z * MemoryCache,
  let r := fold_left (cleanupStep now) entries acc in
  fst r = fst acc + Z.of_nat (List.length (filter (expiredAt now) entries))
  /\ store (snd r)
     = filter (fun kv =>
                 negb (existsb (String.eqb (fst kv))
                         (JsMap.keys (filter (expiredAt now) entries))))
         (store (snd acc))
  /\ accessOrder (snd r)
     = filter (fun ki =>
                 negb (existsb (String.eqb (fst ki))
                         (JsMap.keys (filter (expiredAt now) entries))))
         (accessOrder (snd acc))
  /\ hits (snd r) = hits (snd acc) /\ misses (snd r) = misses (snd acc)
  /\ evictions (snd r) = evictions (snd acc)
  /\ nextAccessTime (snd r) = nextAccessTime (snd acc)
  /\ maxSize (snd r) = maxSize (snd acc)
  /\ maxMemory (snd r) = maxMemory (snd acc)
  /\ evictionPolicy (snd r) = evictionPolicy (snd acc).
Proof.
  assert (forall (V : Type) (m : JsMap.t V), filter (fun _ => true) m = m) as Hid.
  { intros V m. induction m as [|x m IH]; simpl; [reflexivity|now rewrite IH]. }
  assert (forall (V : Type) (m : JsMap.t V) k ks,
            filter (fun kv => negb (existsb (String.eqb (fst kv)) ks))
              (JsMap.delete m k)
            = filter (fun kv => negb (existsb (String.eqb (fst kv)) (k :: ks))) m)
    as Hdel.
  { intros V m k ks. unfold JsMap.delete.
    induction m as [|x m IH]; simpl; [reflexivity|].
    rewrite (String.eqb_sym (fst x) k).
    destruct (String.eqb k (fst x)); simpl; [exact IH|].
    destruct (existsb _ ks); simpl; now rewrite IH. }
  induction entries as [|kv entries IH]; intros acc; cbn zeta.
  - cbn [fold_left filter List.length JsMap.keys map existsb negb].
    rewrite !Hid. repeat split; lia.
  - cbn [fold_left]. specialize (IH (cleanupStep now acc kv)). cbn zeta in IH.
    destruct IH as (I1 & I2 & I3 & I4 & I5 & I6 & I7 & I8 & I9 & I10).
    rewrite I1, I2, I3, I4, I5, I6, I7, I8, I9, I10.
    unfold cleanupStep. cbn [filter].
    change (expiredAt now kv) with (isExpired (snd kv) now).
    destruct (isExpired (snd kv) now); cbn [fst snd].
    + simpl store. simpl accessOrder. cbn [JsMap.keys map List.length].
      rewrite !Hdel. repeat split; lia.
    + repeat split.
Qed.

(** On a table with distinct keys the sweep keeps the live entries. *)
Lemma cleanup_store c now :
  wf c -> store (snd (cleanup c now)) = filter (liveAt now) (store c).
Proof.
  intros W. unfold cleanup.
  destruct (cleanup_fold now (store c) (0, c)) as (_ & I2 & _).
  cbn [fst snd] in *. rewrite I2.
  apply filter_ext_in. intros [k e] Hin. unfold liveAt. cbn [fst snd].
  f_equal. destruct (isExpired e now) eqn:X.
  - apply existsb_exists. exists k. split; [|apply String.eqb_refl].
    apply (in_map fst (filter (expiredAt now) (store c)) (k, e)).
    apply filter_In. split; [exact Hin|exact X].
  - destruct (existsb _ _) eqn:E; [|reflexivity].
    apply existsb_exists in E. destruct E as (k' & Hk' & Ek).
    apply String.eqb_eq in Ek. subst k'.
    apply in_map_iff in Hk'. destruct Hk' as ([k2 e2] & Hfst & Hin2).
    simpl in Hfst. subst k2. apply filter_In in Hin2.
    destruct Hin2 as [Hin2 X2]. unfold expiredAt in X2. simpl in X2.
    pose proof (@JsMapFacts.In_get_NoDup _ (store c) k e
                  (wf_store_nodup W) Hin) as G1.
    pose proof (@JsMapFacts.In_get_NoDup _ (store c) k e2
                  (wf_store_nodup W) Hin2) as G2.
    congruence.
Qed.

(** X6: on a table with distinct keys, [cleanup] removes exactly the
    entries that are expired at the time of the sweep, keeps the others in
    their order, returns the number it removed, and moves no counter. *)
Theorem cleanup_removes_exactly_expired c now :
  wf c ->
  store (snd (cleanup c now)) = filter (liveAt now) (store c)
  /\ fst (cleanup c now)
     = Z.of_nat (List.length (filter (expiredAt now) (store c)))
  /\ fst (cleanup c now) = size c - size (snd (cleanup c now))
  /\ (forall k, In k (JsMap.keys (accessOrder (snd (cleanup c now)))) ->
        In k (JsMap.keys (accessOrder c)))
  /\ hits (snd (cleanup c now)) = hits c
  /\ misses (snd (cleanup c now)) = misses c
  /\ evictions (snd (cleanup c now)) = evictions c.
Proof.
  intros W. pose proof (cleanup_store now W) as Hs. revert Hs. unfold cleanup.
  destruct (cleanup_fold now (store c) (0, c))
    as (I1 & I2 & I3 & I4 & I5 & I6 & _).
  cbn [fst snd] in *. intros Hs.
  rewrite Hs, I1. split; [reflexivity|]. split; [lia|].
  split; [|split; [|auto]].
  - unfold size, JsMap.size.
    assert (forall l : JsMap.t CacheEntry,
              (List.length l
               = List.length (filter (expiredAt now) l)
                 + List.length (filter (liveAt now) l))%nat) as Hsplit.
    { induction l as [|x l IH]; [reflexivity|]. cbn [filter].
      change (expiredAt now x) with (isExpired (snd x) now).
      change (liveAt now x) with (negb (isExpired (snd x) now)).
      destruct (isExpired (snd x) now); cbn [negb List.length]; lia. }
    rewrite Hs, (Hsplit (store c)). lia.
  - intros k. rewrite I3. unfold JsMap.keys. intros Hin.
    apply in_map_iff in Hin. destruct Hin as (ki & <- & Hin).
    apply filter_In in Hin. apply in_map. tauto.
Qed.

Lemma cleanup_removes_exactly_expired_witness :
  store (snd (cleanup lruCache 51)) = filter (liveAt 51) (store lruCache)
  /\ fst (cleanup lruCache 51)
     = Z.of_nat (List.length (filter (expiredAt 51) (store lruCache)))
  /\ fst (cleanup lruCache 51) = size lruCache - size (snd (cleanup lruCache 51))
  /\ (forall k, In k (JsMap.keys (accessOrder (snd (cleanup lruCache 51)))) ->
        In k (JsMap.keys (accessOrder lruCache)))
  /\ hits (snd (cleanup lruCache 51)) = hits lruCache
  /\ misses (snd (cleanup lruCache 51)) = misses lruCache
  /\ evictions (snd (cleanup lruCache 51)) = evictions lruCache.
Proof. apply (@cleanup_removes_exactly_expired lruCache 51 lruCache_wf). Defined.

Lemma cleanup_nothing_expired now entries : forall acc : Z * MemoryCache,
  filter (expiredAt now) entries = [] ->
  fold_left (cleanupStep now) entries acc = acc.
Proof.
  induction entries as [|kv entries IH]; intros acc H; simpl; [reflexivity|].
  cbn [filter] in H. change (expiredAt now kv) with (isExpired (snd kv) now) in H.
  unfold cleanupStep at 2.
  destruct (isExpired (snd kv) now); [discriminate|]. now apply IH.
Qed.

(** X7: a second [cleanup] at the same time finds nothing to remove: it
    returns 0 and leaves the cache as the first sweep left it. *)
Theorem cleanup_twice_returns_zero c now :
  wf c ->
  cleanup (snd (cleanup c now)) now = (0, snd (cleanup c now)).
Proof.
  intros W.
  pose proof (cleanup_store now W) as Hs.
  unfold cleanup at 1. apply cleanup_nothing_expired.
  rewrite Hs. generalize (store c) as l.
  induction l as [|x l IH]; [reflexivity|]. cbn [filter].
  change (liveAt now x) with (negb (isExpired (snd x) now)).
  destruct (isExpired (snd x) now) eqn:X; cbn [negb filter]; [exact IH|].
  change (expiredAt now x) with (isExpired (snd x) now). now rewrite X.
Qed.

Lemma cleanup_twice_returns_zero_witness :
  cleanup (snd (cleanup lruCache 51)) 51 = (0, snd (cleanup lruCache 51)).
Proof. apply (@cleanup_twice_returns_zero lruCache 51 lruCache_wf). Defined.

(** ** What every run of calls keeps *)

Lemma fresh_filter (f : string * Z -> bool) (a : JsMap.t Z) n :
  Forall (fun ki => snd ki < n) a -> NoDup (map snd a) ->
  Forall (fun ki => snd ki < n) (filter f a) /\ NoDup (map snd (filter f a)).
Proof.
  induction a as [|ki a IH]; intros HF HN; simpl; [split; constructor|].
  inversion HF as [|? ? Hlt HF']; subst. inversion HN as [|? ? Hnot HN']; subst.
  destruct (IH HF' HN') as [IF IN]. destruct (f ki); simpl; [|now split].
  split; [now constructor|]. constructor; [|exact IN].
  intros Hin. apply Hnot. apply in_map_iff in Hin.
  destruct Hin as (x & Ex & Hx). apply filter_In in Hx.
  apply in_map_iff. exists x. tauto.
Qed.

Lemma fresh_set (a : JsMap.t Z) key n :
  Forall (fun ki => snd ki < n) a -> NoDup (map snd a) ->
  Forall (fun ki => snd ki < n + 1) (JsMap.set a key n)
  /\ NoDup (map snd (JsMap.set a key n)).
Proof.
  induction a as [|[k i] a IH]; intros HF HN; simpl.
  - split; repeat constructor; simpl; [lia|intros []].
  - inversion HF as [|? ? Hlt HF']; subst. inversion HN as [|? ? Hnot HN']; subst.
    simpl in Hlt.
    assert (~ In n (map snd a)) as Hn.
    { intros Hin. apply in_map_iff in Hin. destruct Hin as (x & Ex & Hx).
      rewrite Forall_forall in HF'. specialize (HF' x Hx). lia. }
    assert (Forall (fun ki => snd ki < n + 1) a) as HF1.
    { rewrite Forall_forall in *. intros x Hx. specialize (HF' x Hx). lia. }
    destruct (String.eqb k key); simpl.
    + split; [constructor; [simpl; lia|exact HF1]|]. now constructor.
    + destruct (IH HF' HN') as [IF IN].
      split; [constructor; [simpl; lia|exact IF]|]. constructor; [|exact IN].
      intros Hin. apply in_map_iff in Hin. destruct Hin as ([k' i'] & Ex & Hx).
      simpl in Ex. subst i'. apply JsMapFacts.In_set in Hx.
      destruct Hx as [E|Hx]; [injection E as _ <-; lia|].
      apply Hnot. apply (in_map snd a (k', i) Hx).
Qed.

Lemma orderFresh_remove c k :
  orderFresh c ->
  orderFresh (withAccessOrder (withStore c (JsMap.delete (store c) k))
                (JsMap.delete (accessOrder c) k)).
Proof. intros [HF HN]. unfold orderFresh. simpl. now apply fresh_filter. Qed.

Lemma orderFresh_write c key entry :
  orderFresh c ->
  orderFresh (match evictionPolicy c with
              | lru =>
                  withNextAccessTime
                    (withAccessOrder
                       (withStore c (JsMap.set (store c) key entry))
                       (JsMap.set (accessOrder c) key (nextAccessTime c)))
                    (nextAccessTime c + 1)
              | fifo => withStore c (JsMap.set (store c) key entry)
              end).
Proof.
  intros [HF HN]. destruct (evictionPolicy c); unfold orderFresh; simpl.
  - now apply fresh_set.
  - now split.
Qed.

Lemma orderFresh_evictOne c : orderFresh c -> orderFresh (evictOne c).
Proof.
  intros F. destruct (evictOne_cases c) as [->|(_ & _ & ->)]; [exact F|].
  destruct (@orderFresh_remove c (keyToEvict c) F) as [HF HN].
  split; assumption.
Qed.

Lemma orderFresh_insert c key v ttl now :
  orderFresh c -> orderFresh (insert c key v ttl now).
Proof.
  intros F. rewrite insert_unfold. cbv zeta. apply orderFresh_write.
  destruct (_ && _); [now apply orderFresh_evictOne|exact F].
Qed.

Lemma orderFresh_evictWhileOver fuel m : forall c c',
  evictWhileOver fuel m c = Returned c' -> orderFresh c -> orderFresh c'.
Proof.
  induction fuel as [|fuel IH]; intros c c'; simpl.
  - destruct (_ && _); [discriminate|]. intros E. now injection E as <-.
  - destruct (_ && _).
    + intros E F. apply (IH _ _ E). now apply orderFresh_evictOne.
    + intros E. now injection E as <-.
Qed.

Lemma orderFresh_set fuel c key v ttl now c' :
  set fuel c key v ttl now = Returned c' -> orderFresh c -> orderFresh c'.
Proof.
  unfold set, checkMemoryLimits. destruct (estimateMemoryUsage _); [|discriminate].
  intros E F. eapply orderFresh_evictWhileOver; [exact E|].
  now apply orderFresh_insert.
Qed.

Lemma orderFresh_get c key now : orderFresh c -> orderFresh (snd (get c key now)).
Proof.
  intros F. unfold get. destruct (JsMap.get (store c) key) as [e|].
  - destruct (isExpired e now); cbn [snd].
    + destruct (@orderFresh_remove c key F) as [HF HN]. split; assumption.
    + unfold recordHit. cbv zeta. simpl evictionPolicy.
      pose proof (@orderFresh_write c key
        (mkEntry (value e) (createdAt e) now (expiresAt e) (ttl e)) F) as F'.
      destruct (evictionPolicy c); destruct F' as [HF HN]; split; assumption.
  - destruct F as [HF HN]. split; assumption.
Qed.

Lemma orderFresh_cleanup c now :
  orderFresh c -> orderFresh (snd (cleanup c now)).
Proof.
  intros [HF HN]. unfold cleanup.
  destruct (cleanup_fold now (store c) (0, c))
    as (_ & _ & I3 & _ & _ & _ & I7 & _).
  cbn [fst snd] in *. unfold orderFresh. rewrite I3, I7.
  now apply fresh_filter.
Qed.

Lemma runOp_keeps fuel c op c' :
  runOp fuel c op = Returned c' -> wf c -> orderFresh c ->
  wf c' /\ orderFresh c'
  /\ maxSize c' = maxSize c /\ maxMemory c' = maxMemory c
  /\ evictionPolicy c' = evictionPolicy c.
Proof.
  destruct op as [key v ttl now|key now|key now|key| |now]; simpl; intros E W F.
  - assert (orderFresh c') as F' by (eapply orderFresh_set; eauto).
    apply set_returned in E; [|exact W]. intuition.
  - injection E as <-. split; [now apply wf_get|].
    split; [now apply orderFresh_get|].
    pose proof (get_fields c key now). intuition.
  - injection E as <-. unfold has. cbn [snd]. split; [now apply wf_get|].
    split; [now apply orderFresh_get|].
    pose proof (get_fields c key now). intuition.
  - injection E as <-. split; [now apply wf_delete|].
    split; [now apply orderFresh_remove|]. auto.
  - injection E as <-. split; [apply wf_clear|].
    split; [|auto]. split; simpl; constructor.
  - injection E as <-. split; [now apply wf_cleanup|].
    split; [now apply orderFresh_cleanup|].
    unfold cleanup.
    destruct (cleanup_fold now (store c) (0, c))
      as (_ & _ & _ & _ & _ & _ & _ & I8 & I9 & I10).
    auto.
Qed.

Lemma runOps_keeps fuel ops : forall c c',
  runOps fuel ops c = Returned c' -> wf c -> orderFresh c ->
  wf c' /\ orderFresh c'
  /\ maxSize c' = maxSize c /\ maxMemory c' = maxMemory c
  /\ evictionPolicy c' = evictionPolicy c.
Proof.
  induction ops as [|op ops IH]; intros c c' E W F; simpl in E.
  - injection E as <-. auto.
  - destruct (runOp fuel c op) as [c1| |] eqn:E1; simpl in E; try discriminate.
    apply runOp_keeps in E1; [|exact W|exact F].
    destruct E1 as (W1 & F1 & M1 & M2 & M3).
    apply IH in E; [|exact W1|exact F1].
    destruct E as (W' & F' & N1 & N2 & N3).
    intuition congruence.
Qed.

Lemma constructor_fresh config c : constructor config = Returned c -> orderFresh c.
Proof.
  unfold constructor. intros E. injection E as <-. split; simpl; constructor.
Qed.

(** X8: whatever calls are made on a cache after its construction, the
    keys of the table stay distinct, the order index holds exactly the keys
    of the table under LRU and nothing under FIFO, and the capacity, the
    memory limit and the policy stay those of the construction. *)
Theorem order_index_follows_table config fuel ops c0 c :
  constructor config = Returned c0 ->
  runOps fuel ops c0 = Returned c ->
  NoDup (JsMap.keys (store c))
  /\ (evictionPolicy c = lru ->
        forall k, In k (JsMap.keys (accessOrder c))
                  <-> In k (JsMap.keys (store c)))
  /\ (evictionPolicy c = fifo -> accessOrder c = [])
  /\ maxSize c = cfg_maxSize config ?? 1000
  /\ maxMemory c = cfg_maxMemory config ?? 104857600
  /\ evictionPolicy c = cfg_evictionPolicy config ?? lru.
Proof.
  intros E0 E.
  assert (wf c0) as W0 by (eapply wf_constructor; eauto).
  assert (orderFresh c0) as F0 by (eapply constructor_fresh; eauto).
  apply runOps_keeps in E; [|exact W0|exact F0].
  destruct E as ([Hs Ha Hl Hf] & _ & M1 & M2 & M3).
  unfold constructor in E0. injection E0 as <-. simpl in *.
  repeat split; auto; apply Hl; auto.
Qed.

Lemma order_index_follows_table_witness :
  NoDup (JsMap.keys (store sampleRun))
  /\ (evictionPolicy sampleRun = lru ->
        forall k, In k (JsMap.keys (accessOrder sampleRun))
                  <-> In k (JsMap.keys (store sampleRun)))
  /\ (evictionPolicy sampleRun = fifo -> accessOrder sampleRun = [])
  /\ maxSize sampleRun = 1000
  /\ maxMemory sampleRun = 104857600
  /\ evictionPolicy sampleRun = lru.
Proof.
  apply (@order_index_follows_table emptyConfig 0 sampleOps defaultCache
           sampleRun).
  - reflexivity.
  - vm_compute. reflexivity.
Defined.

Lemma NoDup_map_snd_inj (a : JsMap.t Z) k1 k2 i :
  NoDup (map snd a) -> In (k1, i) a -> In (k2, i) a -> k1 = k2.
Proof.
  induction a as [|[k j] a IH]; intros HN H1 H2; [destruct H1|].
  simpl in HN. inversion HN as [|? ? Hnot HN']; subst.
  destruct H1 as [E1|H1], H2 as [E2|H2].
  - congruence.
  - injection E1 as -> ->. exfalso. apply Hnot. apply (in_map snd a (k2, i) H2).
  - injection E2 as -> ->. exfalso. apply Hnot. apply (in_map snd a (k1, i) H1).
  - now apply IH.
Qed.

(** X9: whatever calls are made on a cache after its construction, no two
    keys share an order index and every order index in use is below the
    next one to be given out; so under LRU the entry with the smallest
    order index, the one [evictOne] looks for, is a single one. *)
Theorem order_indices_are_distinct config fuel ops c0 c :
  constructor config = Returned c0 ->
  runOps fuel ops c0 = Returned c ->
  (forall k1 k2 i,
     In (k1, i) (accessOrder c) -> In (k2, i) (accessOrder c) -> k1 = k2)
  /\ (forall k i, In (k, i) (accessOrder c) -> i < nextAccessTime c)
  /\ (forall k i,
        In (k, i) (accessOrder c) ->
        (forall k' i', In (k', i') (accessOrder c) -> i <= i') ->
        forall k' i', In (k', i') (accessOrder c) -> k' <> k -> i < i').
Proof.
  intros E0 E.
  assert (wf c0) as W0 by (eapply wf_constructor; eauto).
  assert (orderFresh c0) as F0 by (eapply constructor_fresh; eauto).
  apply runOps_keeps in E; [|exact W0|exact F0].
  destruct E as (_ & [HF HN] & _).
  split; [|split].
  - intros k1 k2 i. now apply (@NoDup_map_snd_inj (accessOrder c)).
  - intros k i Hin. rewrite Forall_forall in HF. apply (HF (k, i) Hin).
  - intros k i Hin Hmin k' i' Hin' Hne.
    specialize (Hmin k' i' Hin').
    destruct (Z.eq_dec i i') as [<-|]; [|lia].
    exfalso. apply Hne. now apply (@NoDup_map_snd_inj (accessOrder c) k' k i).
Qed.

Lemma order_indices_are_distinct_witness :
  (forall k1 k2 i,
     In (k1, i) (accessOrder sampleRun) -> In (k2, i) (accessOrder sampleRun) ->
     k1 = k2)
  /\ (forall k i, In (k, i) (accessOrder sampleRun) ->
        i < nextAccessTime sampleRun)
  /\ (forall k i,
        In (k, i) (accessOrder sampleRun) ->
        (forall k' i', In (k', i') (accessOrder sampleRun) -> i <= i') ->
        forall k' i', In (k', i') (accessOrder sampleRun) -> k' <> k -> i < i').
Proof.
  apply (@order_indices_are_distinct emptyConfig 0 sampleOps defaultCache
           sampleRun).
  - reflexivity.
  - vm_compute. reflexivity.
Defined.

(** ** Writes *)

Lemma insert_counters c key v ttl now :
  let c1 :=
    if negb (JsMap.has (store c) key) && (JsMap.size (store c) >=? maxSize c)
    then evictOne c else c in
  evictions (insert c key v ttl now) = evictions c1
  /\ hits (insert c key v ttl now) = hits c1
  /\ misses (insert c key v ttl now) = misses c1.
Proof.
  rewrite insert_unfold. cbv zeta.
  destruct (_ && _); [destruct (evictionPolicy (evictOne c))
                     | destruct (evictionPolicy c)]; simpl; auto.
Qed.

(** X10: a [set] of a key that the table already holds evicts nothing,
    whatever the capacity: when it returns with the table not emptied, the
    table holds the same keys in the same order, the key holds the new
    entry, created at the time of the call, every other key holds what it
    held, and no counter has moved. *)
Theorem set_overwrite_keeps_place fuel c key v ttl now c1 :
  JsMap.has (store c) key = true ->
  set fuel c key v ttl now = Returned c1 ->
  store c1 <> [] ->
  JsMap.keys (store c1) = JsMap.keys (store c)
  /\ JsMap.get (store c1) key = Some (newEntry c v ttl now)
  /\ createdAt (newEntry c v ttl now) = now
  /\ (forall k, k <> key -> JsMap.get (store c1) k = JsMap.get (store c) k)
  /\ evictions c1 = evictions c /\ hits c1 = hits c /\ misses c1 = misses c.
Proof.
  intros Hhas S Hne.
  destruct (set_returned_cases _ _ _ _ _ _ S) as [->|Hs]; [|contradiction].
  pose proof (insert_counters c key v ttl now) as C. cbv zeta in C.
  rewrite insert_store, Hhas in *. cbn [negb andb] in *.
  rewrite JsMapFacts.keys_set, Hhas.
  split; [reflexivity|]. split; [apply JsMapFacts.get_set_same|].
  split; [reflexivity|]. split; [|exact C].
  intros k Hk. apply JsMapFacts.get_set_other. congruence.
Qed.

Lemma set_overwrite_keeps_place_witness :
  JsMap.keys (store (insert lruCache "a" (JStr "y") None 20))
  = JsMap.keys (store lruCache)
  /\ JsMap.get (store (insert lruCache "a" (JStr "y") None 20)) "a"
     = Some (newEntry lruCache (JStr "y") None 20)
  /\ createdAt (newEntry lruCache (JStr "y") None 20) = 20
  /\ (forall k, k <> "a" ->
        JsMap.get (store (insert lruCache "a" (JStr "y") None 20)) k
        = JsMap.get (store lruCache) k)
  /\ evictions (insert lruCache "a" (JStr "y") None 20) = evictions lruCache
  /\ hits (insert lruCache "a" (JStr "y") None 20) = hits lruCache
  /\ misses (insert lruCache "a" (JStr "y") None 20) = misses lruCache.
Proof.
  apply (@set_overwrite_keeps_place 0 lruCache "a" (JStr "y") None 20
           (insert lruCache "a" (JStr "y") None 20)).
  - reflexivity.
  - reflexivity.
  - discriminate.
Defined.

(** X11: a [set] of a new key into a table below its capacity evicts
    nothing: when it returns with the table not emptied, the key has been
    added after the keys that were there. *)
Theorem set_new_key_below_capacity fuel c key v ttl now c1 :
  JsMap.has (store c) key = false ->
  size c < maxSize c ->
  set fuel c key v ttl now = Returned c1 ->
  store c1 <> [] ->
  JsMap.keys (store c1) = (JsMap.keys (store c) ++ [key])%list
  /\ JsMap.get (store c1) key = Some (newEntry c v ttl now)
  /\ size c1 = size c + 1
  /\ evictions c1 = evictions c.
Proof.
  intros Hhas Hroom S Hne.
  destruct (set_returned_cases _ _ _ _ _ _ S) as [->|Hs]; [|contradiction].
  pose proof (insert_counters c key v ttl now) as C. cbv zeta in C.
  unfold size in *. rewrite insert_store in *. rewrite Hhas in *.
  destruct (Z.geb_spec (JsMap.size (store c)) (maxSize c)); [lia|].
  cbn [negb andb] in *.
  rewrite JsMapFacts.keys_set, Hhas. unfold JsMap.size.
  rewrite JsMapFacts.length_set, Hhas.
  split; [reflexivity|]. split; [apply JsMapFacts.get_set_same|].
  split; [lia|apply C].
Qed.

Lemma set_new_key_below_capacity_witness :
  JsMap.keys (store (insert (tableOf ["a"]%list) "b" JNull None 20))
  = (JsMap.keys (store (tableOf ["a"]%list)) ++ ["b"])%list
  /\ JsMap.get (store (insert (tableOf ["a"]%list) "b" JNull None 20)) "b"
     = Some (newEntry (tableOf ["a"]%list) JNull None 20)
  /\ size (insert (tableOf ["a"]%list) "b" JNull None 20) = size (tableOf ["a"]%list) + 1
  /\ evictions (insert (tableOf ["a"]%list) "b" JNull None 20) = evictions (tableOf ["a"]%list).
Proof.
  apply (@set_new_key_below_capacity 0 (tableOf ["a"]%list) "b" JNull None 20
           (insert (tableOf ["a"]%list) "b" JNull None 20)).
  - reflexivity.
  - reflexivity.
  - reflexivity.
  - discriminate.
Defined.

(** X12: a [set] of a new key into a full table whose victim is not the
    empty key evicts that one victim, a key of the table, and then adds the
    new key at the end: when it returns with the table not emptied, the
    size is what it was and one eviction has been counted. *)
Theorem set_new_key_at_capacity fuel c key v ttl now c1 :
  wf c ->
  JsMap.has (store c) key = false ->
  maxSize c <= size c ->
  store c <> [] ->
  keyToEvict c <> "" ->
  set fuel c key v ttl now = Returned c1 ->
  store c1 <> [] ->
  In (keyToEvict c) (JsMap.keys (store c))
  /\ JsMap.keys (store c1)
     = (JsMap.keys (JsMap.delete (store c) (keyToEvict c)) ++ [key])%list
  /\ JsMap.get (store c1) key = Some (newEntry c v ttl now)
  /\ size c1 = size c
  /\ evictions c1 = evictions c + 1.
Proof.
  intros W Hhas Hfull Hst Hvictim S Hne.
  destruct (set_returned_cases _ _ _ _ _ _ S) as [->|Hs]; [|contradiction].
  pose proof (insert_counters c key v ttl now) as C. cbv zeta in C.
  pose proof (keyToEvict_in_store W Hst) as Hin.
  unfold size in *. rewrite insert_store in *. rewrite Hhas in *.
  destruct (Z.geb_spec (JsMap.size (store c)) (maxSize c)); [|lia].
  cbn [negb andb] in *.
  assert (evictOne c
          = withEvictions
              (withAccessOrder
                 (withStore c (JsMap.delete (store c) (keyToEvict c)))
                 (JsMap.delete (accessOrder c) (keyToEvict c)))
              (evictions c + 1)) as Ev.
  { unfold evictOne.
    destruct (Z.eqb_spec (JsMap.size (store c)) 0) as [E|E].
    - apply JsMapFacts.size_zero_iff in E. contradiction.
    - apply truthy_iff in Hvictim. now rewrite Hvictim. }
  rewrite Ev in *. simpl in *.
  assert (JsMap.has (JsMap.delete (store c) (keyToEvict c)) key = false) as Hhas'.
  { apply JsMapFacts.has_false_iff. rewrite JsMapFacts.In_keys_delete.
    apply JsMapFacts.has_false_iff in Hhas. tauto. }
  rewrite JsMapFacts.keys_set, Hhas'. unfold JsMap.size.
  rewrite JsMapFacts.length_set, Hhas'.
  pose proof (@JsMapFacts.length_delete_present _ (store c) (keyToEvict c)
                (wf_store_nodup W) Hin) as Hlen.
  split; [exact Hin|]. split; [reflexivity|].
  split; [apply JsMapFacts.get_set_same|]. split; [lia|apply C].
Qed.

Lemma set_new_key_at_capacity_witness :
  In (keyToEvict lruCache) (JsMap.keys (store lruCache))
  /\ JsMap.keys (store (insert lruCache "c" JNull None 20))
     = (JsMap.keys (JsMap.delete (store lruCache) (keyToEvict lruCache))
        ++ ["c"])%list
  /\ JsMap.get (store (insert lruCache "c" JNull None 20)) "c"
     = Some (newEntry lruCache JNull None 20)
  /\ size (insert lruCache "c" JNull None 20) = size lruCache
  /\ evictions (insert lruCache "c" JNull None 20) = evictions lruCache + 1.
Proof.
  apply (@set_new_key_at_capacity 0 lruCache "c" JNull None 20
           (insert lruCache "c" JNull None 20) lruCache_wf).
  - reflexivity.
  - discriminate.
  - discriminate.
  - discriminate.
  - reflexivity.
  - discriminate.
Defined.

(** X13: when the estimate taken after the insertion exceeds [maxMemory],
    and no empty key is involved, [set] returns with the whole table
    evicted: the table and the order index are empty and every entry has
    been counted as an eviction. *)
Theorem set_over_limit_drains_table fuel c key v ttl now m :
  wf c -> key <> "" -> ~ In "" (JsMap.keys (store c)) ->
  estimateMemoryUsage (insert c key v ttl now) = Some m ->
  maxMemory c < m ->
  (List.length (store c) < fuel)%nat ->
  exists c1,
    set fuel c key v ttl now = Returned c1
    /\ store c1 = [] /\ accessOrder c1 = []
    /\ evictions c1
       = evictions (insert c key v ttl now)
         + size (insert c key v ttl now).
Proof.
  intros W Hkey Hk Hm Hover Hfuel.
  pose proof (wf_insert key v ttl now W) as Wi.
  destruct (insert_config c key v ttl now) as (_ & Emem & _).
  assert (~ In "" (JsMap.keys (store (insert c key v ttl now)))) as Hk'.
  { intros Hin. apply insert_keys in Hin.
    destruct Hin; [congruence|contradiction]. }
  destruct (@evictWhileOver_drains fuel m (insert c key v ttl now) Wi Hk')
    as (c1 & R & Hs & W1 & _ & _ & Ev);
    [now rewrite Emem|pose proof (insert_length c key v ttl now); lia|].
  exists c1. unfold set, checkMemoryLimits. rewrite Hm.
  split; [exact R|]. split; [exact Hs|]. split; [|exact Ev].
  destruct (evictionPolicy c1) eqn:P.
  - destruct (accessOrder c1) as [|[k i] a] eqn:A; [reflexivity|].
    exfalso. assert (In k (JsMap.keys (store c1))) as Hin.
    { apply (wf_order_lru W1 P). rewrite A. now left. }
    now rewrite Hs in Hin.
  - apply (wf_order_fifo W1 P).
Qed.

Lemma set_over_limit_drains_table_witness :
  exists c1,
    set 2 smallCache "b" (JStr "0123456789") (Some 0) 7 = Returned c1
    /\ store c1 = [] /\ accessOrder c1 = []
    /\ evictions c1
       = evictions (insert smallCache "b" (JStr "0123456789") (Some 0) 7)
         + size (insert smallCache "b" (JStr "0123456789") (Some 0) 7).
Proof.
  apply (@set_over_limit_drains_table 2 smallCache "b" (JStr "0123456789")
           (Some 0) 7 162 smallCache_wf).
  - discriminate.
  - simpl. intros [H|[]]. discriminate.
  - vm_compute. reflexivity.
  - reflexivity.
  - simpl. lia.
Defined.

(** ** The estimate *)

(** X14: [estimateMemoryUsage] raises exactly when some value in the table
    cannot be sized by [JSON.stringify]; when it returns, it has counted at
    least the 64 bytes of overhead for every entry. *)
Theorem estimate_raises_iff_unserializable c :
  (estimateMemoryUsage c = None
   <-> Exists (fun kv => stringifyLength (value (snd kv)) = None) (store c))
  /\ (forall m, estimateMemoryUsage c = Some m -> 64 * size c <= m).
Proof.
  unfold estimateMemoryUsage, size, JsMap.size.
  assert (forall (s : JsMap.t CacheEntry) acc,
            sumBytes s acc = None
            <-> Exists (fun kv => stringifyLength (value (snd kv)) = None) s)
    as Hnone.
  { induction s as [|[k e] s IH]; intros acc; simpl.
    - split; [discriminate|intros H; inversion H].
    - destruct (stringifyLength (value e)) as [len|] eqn:L.
      + rewrite IH. split; [intros H; now right|].
        intros H. inversion H as [? ? H0|? ? H0]; subst; [|exact H0].
        simpl in H0. congruence.
      + split; [intros _; now left|reflexivity]. }
  assert (forall (s : JsMap.t CacheEntry) acc m,
            sumBytes s acc = Some m ->
            acc + 64 * Z.of_nat (List.length s) <= m) as Hlow.
  { induction s as [|[k e] s IH]; intros acc m H; simpl in H.
    - injection H as <-. simpl. lia.
    - destruct (stringifyLength (value e)) as [len|] eqn:L; [|discriminate].
      apply IH in H. pose proof (stringifyLength_nonneg _ L).
      unfold strlen in H. simpl List.length. lia. }
  split; [apply Hnone|]. intros m H. apply Hlow in H. lia.
Qed.

(** X15: a value that [JSON.stringify] cannot size makes [set] raise
    after the entry has been written: the [set] of such a value raises, and
    so does every [set] made while the table holds one, whatever is being
    set. *)
Theorem set_raises_while_unserializable_stored fuel c key v lifetime now :
  (~ serializable v ->
   set fuel c key v lifetime now = Thrown (insert c key v lifetime now))
  /\ (forall k e,
        In (k, e) (store c) -> ~ serializable (value e) ->
        k <> key -> k <> keyToEvict c ->
        set fuel c key v lifetime now = Thrown (insert c key v lifetime now)).
Proof.
  split.
  - intros Hbad.
    apply (@set_throws_after_unserializable fuel c key v lifetime now key
             (newEntry c v lifetime now)); [|exact Hbad].
    apply JsMapFacts.get_In. apply insert_get.
  - intros k e Hin Hbad Hk Hvictim.
    apply (@set_throws_after_unserializable fuel c key v lifetime now k e);
      [|exact Hbad].
    rewrite insert_store.
    assert (forall m : JsMap.t CacheEntry,
              In (k, e) m ->
              In (k, e) (JsMap.set m key (newEntry c v lifetime now))) as Hset.
    { intros m Hm. now apply In_set_other. }
    apply Hset. destruct (_ && _); [|exact Hin].
    destruct (evictOne_cases c) as [->|(_ & _ & ->)]; [exact Hin|].
    simpl. apply JsMapFacts.In_delete. now split.
Qed.

Lemma set_raises_while_unserializable_stored_witness :
  set 0 (tableOf ["a"]%list) "b" JCyclic None 5
  = Thrown (insert (tableOf ["a"]%list) "b" JCyclic None 5)
  /\ set 0 (insert (tableOf ["a"]%list) "b" JCyclic None 5) "c" JNull None 6
     = Thrown (insert (insert (tableOf ["a"]%list) "b" JCyclic None 5)
                 "c" JNull None 6).
Proof.
  split.
  - apply (proj1 (set_raises_while_unserializable_stored 0
                    (tableOf ["a"]%list) "b" JCyclic None 5)).
    intros H. apply H. reflexivity.
  - apply (proj2 (set_raises_while_unserializable_stored 0
                    (insert (tableOf ["a"]%list) "b" JCyclic None 5)
                    "c" JNull None 6)
             "b" (newEntry (tableOf ["a"]%list) JCyclic None 5)).
    + simpl. auto.
    + intros H. apply H. reflexivity.
    + discriminate.
    + discriminate.
Defined.

(** ** Recency under LRU *)

(** The key whose order index has just been written is not the one that
    the victim search returns, as long as the index holds another key. *)
Lemma touched_key_not_oldest (a : JsMap.t Z) key n k' i' :
  NoDup (JsMap.keys a) ->
  Forall (fun ki => snd ki < n) a ->
  k' <> key -> In (k', i') a ->
  snd (scanOldest (fun accessTime : Z => accessTime) (JsMap.set a key n)) <> key.
Proof.
  intros HN HF Hne Hin E.
  assert (In (k', i') (JsMap.set a key n)) as Hin' by now apply In_set_other.
  destruct (@scanOldest_spec Z (fun accessTime => accessTime) (JsMap.set a key n))
    as (v & Hv & Hmin).
  { intros Hnil. now rewrite Hnil in Hin'. }
  rewrite E in Hv.
  pose proof (@JsMapFacts.In_get_NoDup _ (JsMap.set a key n) key v
                (JsMapFacts.NoDup_set a key n HN) Hv) as G.
  rewrite JsMapFacts.get_set_same in G. injection G as <-.
  specialize (Hmin (k', i') Hin'). simpl in Hmin.
  rewrite Forall_forall in HF. specialize (HF (k', i') Hin). simpl in HF. lia.
Qed.

(** X16: under LRU, in a cache that its own calls produced and that holds
    another key, a key that [get] has just found live is not the victim of
    the next eviction. *)
Theorem lru_read_key_is_not_next_victim c key e now k' :
  wf c -> orderFresh c ->
  evictionPolicy c = lru ->
  JsMap.get (store c) key = Some e ->
  isExpired e now = false ->
  k' <> key -> In k' (JsMap.keys (store c)) ->
  keyToEvict (snd (get c key now)) <> key
  /\ In key (JsMap.keys (store (evictOne (snd (get c key now))))).
Proof.
  intros W [HF HN] P G X Hne Hin.
  rewrite (@get_hit c key now e G X). cbn [snd].
  assert (keyToEvict (recordHit c key e now) <> key) as Hvictim.
  { unfold keyToEvict, recordHit. simpl. repeat (rewrite P; simpl).
    apply (wf_order_lru W P) in Hin. apply in_map_iff in Hin.
    destruct Hin as ([k0 i'] & Ek & Hin). simpl in Ek. subst k0.
    apply touched_key_not_oldest with (k' := k') (i' := i'); auto.
    apply W. }
  split; [exact Hvictim|].
  assert (In key (JsMap.keys (store (recordHit c key e now)))) as Hkey.
  { rewrite recordHit_store, JsMapFacts.In_keys_set. now left. }
  destruct (evictOne_cases (recordHit c key e now)) as [->|(_ & _ & ->)];
    [exact Hkey|].
  simpl store. rewrite JsMapFacts.In_keys_delete. split; [exact Hkey|].
  congruence.
Qed.

Lemma lruCache_fresh : orderFresh lruCache.
Proof.
  split; simpl.
  - repeat constructor; simpl; lia.
  - repeat constructor; simpl; intuition discriminate.
Defined.

Lemma lru_read_key_is_not_next_victim_witness :
  keyToEvict (snd (get lruCache "b" 40)) <> "b"
  /\ In "b" (JsMap.keys (store (evictOne (snd (get lruCache "b" 40))))).
Proof.
  apply (@lru_read_key_is_not_next_victim lruCache "b"
           (mkEntry JNull 6 6 (Some 50) (Some 44)) 40 "a"
           lruCache_wf lruCache_fresh).
  - reflexivity.
  - reflexivity.
  - reflexivity.
  - discriminate.
  - simpl. auto.
Defined.

(** * The [Cache] unit *)

Lemma slice_zero s : slice 0 s = s.
Proof. now destruct s. Qed.

Lemma prefix_nil k : String.prefix "" k = true.
Proof. now destruct k. Qed.

(** A key that starts with the prefix is the prefix followed by what
    [slice] leaves. *)
Lemma prefix_slice p : forall k,
  String.prefix p k = true -> (p ++ slice (String.length p) k)%string = k.
Proof.
  induction p as [|c p IH]; intros k H.
  - simpl. apply slice_zero.
  - destruct k as [|d k]; simpl in H; [discriminate|].
    destruct (Ascii.ascii_dec c d) as [->|]; [|discriminate].
    simpl. f_equal. now apply IH.
Qed.

Lemma prefix_app p s : String.prefix p (p ++ s) = true.
Proof.
  induction p as [|c p IH]; simpl; [apply prefix_nil|].
  destruct (Ascii.ascii_dec c c); [exact IH|congruence].
Qed.

Lemma slice_app p s : slice (String.length p) (p ++ s) = s.
Proof. induction p as [|c p IH]; simpl; [apply slice_zero|exact IH]. Qed.

Lemma isGlobFree_cons c p :
  isGlobFree (String c p) = true ->
  Ascii.eqb c "*" = false /\ Ascii.eqb c "?" = false /\ isGlobFree p = true.
Proof.
  unfold isGlobFree. simpl. intros H. apply andb_prop in H.
  destruct H as [H1 H2]. apply negb_true_iff, orb_false_elim in H1. tauto.
Qed.

(** A glob pattern that starts with literal characters matches the keys
    that start with them and go on as the rest of the pattern says. *)
Lemma globMatch_literal_prefix p : forall pattern k,
  isGlobFree p = true ->
  globMatch (p ++ pattern) k
  = String.prefix p k && globMatch pattern (slice (String.length p) k).
Proof.
  induction p as [|c p IH]; intros pattern k Hp.
  - simpl String.append. now rewrite prefix_nil, slice_zero.
  - apply isGlobFree_cons in Hp. destruct Hp as (Hs & Hq & Hp).
    cbn [String.append globMatch]. rewrite Hs, Hq.
    destruct k as [|d k]; [reflexivity|]. cbn [orb String.prefix String.length slice].
    rewrite IH by exact Hp.
    destruct (Ascii.ascii_dec c d) as [->|Hne].
    + now rewrite Ascii.eqb_refl.
    + destruct (Ascii.eqb_spec c d); [contradiction|reflexivity].
Qed.

Lemma globMatch_star k : globMatch "*" k = true.
Proof. induction k as [|c k IH]; [reflexivity|exact IH]. Qed.

Lemma filter_globMatch_star (ks : list string) :
  filter (globMatch "*") ks = ks.
Proof.
  induction ks as [|k ks IH]; [reflexivity|]. cbn [filter].
  now rewrite globMatch_star, IH.
Qed.

Lemma hasLineTerminator_slice n : forall k,
  hasLineTerminator k = false -> hasLineTerminator (slice n k) = false.
Proof.
  induction n as [|n IH]; intros k H; [now rewrite slice_zero|].
  destruct k as [|c k]; [reflexivity|].
  apply hasLineTerminator_cons in H. simpl. apply IH. tauto.
Qed.

(** What the backend lists for a pattern that is not empty, on keys
    without line terminators. *)
Lemma backend_keys_glob c pattern :
  pattern <> "" ->
  Forall (fun k => hasLineTerminator k = false) (JsMap.keys (store c)) ->
  keys c (Some pattern) = Some (filter (globMatch pattern) (JsMap.keys (store c))).
Proof.
  intros Hne Hkeys. unfold keys.
  rewrite (truthy_pattern Hne), globToRegex_compiles. f_equal.
  apply filter_ext_in. intros k Hin.
  rewrite test_anchored. apply match_compiled.
  rewrite Forall_forall in Hkeys. now apply Hkeys.
Qed.

Lemma append_nonempty p s : s <> "" -> (p ++ s)%string <> "".
Proof. destruct p; simpl; [auto|discriminate]. Qed.

Lemma filter_map_slice p (f : string -> bool) (ks : list string) :
  map (slice (String.length p))
    (filter (fun k => String.prefix p k && f (slice (String.length p) k)) ks)
  = filter f (map (slice (String.length p)) (filter (String.prefix p) ks)).
Proof.
  induction ks as [|k ks IH]; simpl; [reflexivity|].
  destruct (String.prefix p k); simpl; [|exact IH].
  destruct (f (slice (String.length p) k)); simpl; now rewrite IH.
Qed.

(** X17: with a key prefix free of glob characters, over a table whose
    keys hold no line terminator, [Cache.keys] lists the unit's own keys:
    the backend keys that start with the prefix, with the prefix cut off, in
    table order, and among them those that match the pattern when one is
    given; each listed key, prefixed again, is a key of the backend. *)
Theorem unit_keys_strip_prefix u pattern :
  isGlobFree (keyPrefix u) = true ->
  Forall (fun k => hasLineTerminator k = false)
    (JsMap.keys (store (backend u))) ->
  Cache.keys u None = Some (unitKeys u)
  /\ Cache.keys u (Some "") = Some (unitKeys u)
  /\ (pattern <> "" ->
        Cache.keys u (Some pattern)
        = Some (filter (globMatch pattern) (unitKeys u)))
  /\ (forall k, In k (unitKeys u) ->
        In (Cache.prefixKey u k) (JsMap.keys (store (backend u)))).
Proof.
  intros Hp Hkeys.
  assert (forall pat, pat <> "" ->
            match keys (backend u) (Some (keyPrefix u ++ pat)) with
            | Some prefixedKeys =>
                if truthy (keyPrefix u)
                then Some (map (slice (String.length (keyPrefix u))) prefixedKeys)
                else Some prefixedKeys
            | None => None
            end = Some (filter (globMatch pat) (unitKeys u))) as H.
  { intros pat Hpat.
    rewrite backend_keys_glob by (try apply append_nonempty; assumption).
    rewrite (filter_ext _ _ (fun k => globMatch_literal_prefix _ pat k Hp)).
    unfold unitKeys. rewrite <- filter_map_slice.
    destruct (keyPrefix u) as [|c p] eqn:E; [|reflexivity].
    cbn [truthy]. f_equal. simpl String.length.
    rewrite map_ext with (g := fun k => k) by apply slice_zero.
    now rewrite map_id. }
  pose proof (filter_globMatch_star (unitKeys u)) as Hall.
  split; [|split; [|split]].
  - unfold Cache.keys. rewrite H by discriminate. now rewrite Hall.
  - unfold Cache.keys. cbn [truthy]. rewrite H by discriminate. now rewrite Hall.
  - intros Hpat. unfold Cache.keys. rewrite (truthy_pattern Hpat). now apply H.
  - intros k Hin. unfold unitKeys in Hin. apply in_map_iff in Hin.
    destruct Hin as (k0 & <- & Hin). apply filter_In in Hin.
    destruct Hin as [Hin Hpre]. unfold Cache.prefixKey.
    destruct (keyPrefix u) as [|c p] eqn:E.
    + cbn [truthy String.length]. now rewrite slice_zero.
    + cbn [truthy]. now rewrite prefix_slice.
Qed.

Lemma unit_keys_strip_prefix_witness :
  Cache.keys sampleUnit None = Some ["user:1"; "post:1"; ""]%list
  /\ Cache.keys sampleUnit (Some "") = Some (unitKeys sampleUnit)
  /\ (("user:?" : string) <> "" ->
        Cache.keys sampleUnit (Some "user:?")
        = Some (filter (globMatch "user:?") (unitKeys sampleUnit)))
  /\ (forall k, In k (unitKeys sampleUnit) ->
        In (Cache.prefixKey sampleUnit k)
          (JsMap.keys (store (backend sampleUnit)))).
Proof.
  apply (@unit_keys_strip_prefix sampleUnit "user:?").
  - reflexivity.
  - repeat constructor.
Defined.

Lemma filter_prefix_nil (ks : list string) : filter (String.prefix "") ks = ks.
Proof.
  induction ks as [|k ks IH]; [reflexivity|]. cbn [filter].
  now rewrite prefix_nil, IH.
Qed.

(** What the backend lists for [prefix*]. *)
Lemma backend_keys_prefix c p :
  isGlobFree p = true ->
  Forall (fun k => hasLineTerminator k = false) (JsMap.keys (store c)) ->
  keys c (Some (p ++ "*")) = Some (filter (String.prefix p) (JsMap.keys (store c))).
Proof.
  intros Hp Hkeys.
  rewrite backend_keys_glob by (try apply append_nonempty; try discriminate; assumption).
  f_equal. apply filter_ext. intros k.
  rewrite globMatch_literal_prefix by exact Hp.
  now rewrite globMatch_star, andb_true_r.
Qed.

(** X18: [Cache.size] of a unit without a prefix is the size of the
    backend; with a prefix free of glob characters, over keys without line
    terminators, it is the number of the unit's own keys, whatever else the
    backend holds. *)
Theorem unit_size_counts_own_keys u :
  (keyPrefix u = "" -> Cache.size u = Some (size (backend u)))
  /\ (isGlobFree (keyPrefix u) = true ->
      Forall (fun k => hasLineTerminator k = false)
        (JsMap.keys (store (backend u))) ->
      Cache.size u = Some (Z.of_nat (List.length (unitKeys u)))).
Proof.
  split.
  - intros E. unfold Cache.size. now rewrite E.
  - intros Hp Hkeys. unfold Cache.size, unitKeys.
    destruct (keyPrefix u) as [|c p] eqn:E.
    + cbn [truthy negb]. rewrite filter_prefix_nil, length_map.
      unfold size, JsMap.size, JsMap.keys. now rewrite length_map.
    + cbn [truthy negb]. rewrite backend_keys_prefix by assumption.
      now rewrite length_map.
Qed.

Lemma unit_size_counts_own_keys_witness :
  Cache.size (mkProps (backend sampleUnit) "default" "")
  = Some (size (backend sampleUnit))
  /\ Cache.size sampleUnit = Some 3.
Proof.
  split.
  - apply (proj1 (unit_size_counts_own_keys
                    (mkProps (backend sampleUnit) "default" ""))).
    reflexivity.
  - apply (proj2 (unit_size_counts_own_keys sampleUnit)).
    + reflexivity.
    + repeat constructor.
Defined.

(** Deleting a list of keys one by one. *)
Lemma delete_all (ks : list string) : forall b,
  let b' := fold_left (fun b key => snd (delete b key)) ks b in
  store b'
  = filter (fun kv => negb (existsb (String.eqb (fst kv)) ks)) (store b)
  /\ accessOrder b'
     = filter (fun ki => negb (existsb (String.eqb (fst ki)) ks)) (accessOrder b)
  /\ hits b' = hits b /\ misses b' = misses b /\ evictions b' = evictions b
  /\ nextAccessTime b' = nextAccessTime b
  /\ maxSize b' = maxSize b /\ maxMemory b' = maxMemory b
  /\ defaultTTL b' = defaultTTL b /\ evictionPolicy b' = evictionPolicy b.
Proof.
  assert (forall (V : Type) (m : JsMap.t V), filter (fun _ => true) m = m) as Hid.
  { intros V m. induction m as [|x m IH]; simpl; [reflexivity|now rewrite IH]. }
  assert (forall (V : Type) (m : JsMap.t V) k ks0,
            filter (fun kv => negb (existsb (String.eqb (fst kv)) ks0))
              (JsMap.delete m k)
            = filter (fun kv => negb (existsb (String.eqb (fst kv)) (k :: ks0))) m)
    as Hdel.
  { intros V m k ks0. unfold JsMap.delete.
    induction m as [|x m IH]; simpl; [reflexivity|].
    rewrite (String.eqb_sym (fst x) k).
    destruct (String.eqb k (fst x)); simpl; [exact IH|].
    destruct (existsb _ ks0); simpl; now rewrite IH. }
  induction ks as [|k ks IH]; intros b; cbn zeta.
  - cbn [fold_left existsb negb]. rewrite !Hid. repeat split.
  - cbn [fold_left]. specialize (IH (snd (delete b k))). cbn zeta in IH.
    destruct IH as (I1 & I2 & I3 & I4 & I5 & I6 & I7 & I8 & I9 & I10).
    rewrite I1, I2, I3, I4, I5, I6, I7, I8, I9, I10.
    unfold delete. cbn [snd]. simpl store. simpl accessOrder.
    rewrite !Hdel. repeat split.
Qed.

Lemma no_prefixed_left p (s : JsMap.t CacheEntry) :
  filter (String.prefix p)
    (JsMap.keys (filter (fun kv => negb (String.prefix p (fst kv))) s))
  = [].
Proof.
  unfold JsMap.keys. induction s as [|kv s IH]; [reflexivity|].
  cbn [filter]. destruct (String.prefix p (fst kv)) eqn:P; cbn [negb];
    [exact IH|].
  cbn [map filter]. rewrite P. exact IH.
Qed.

(** X19: [Cache.clear] of a unit with a prefix (free of glob characters,
    over keys without line terminators) removes the unit's own keys from the
    table and the order index and nothing else: the keys of other prefixes
    keep their entries and the hit, miss and eviction counters keep their
    values (the backend being in a state that its own calls produce),
    whereas without a prefix the whole backend is cleared and its
    counters are reset. *)
Theorem unit_clear_removes_own_keys u :
  (wf (backend u) ->
   keyPrefix u <> "" ->
   isGlobFree (keyPrefix u) = true ->
   Forall (fun k => hasLineTerminator k = false)
     (JsMap.keys (store (backend u))) ->
   exists u',
     Cache.clear u = Some u'
     /\ keyPrefix u' = keyPrefix u
     /\ store (backend u')
        = filter (fun kv => negb (String.prefix (keyPrefix u) (fst kv)))
            (store (backend u))
     /\ accessOrder (backend u')
        = filter (fun ki => negb (String.prefix (keyPrefix u) (fst ki)))
            (accessOrder (backend u))
     /\ unitKeys u' = []
     /\ hits (backend u') = hits (backend u)
     /\ misses (backend u') = misses (backend u)
     /\ evictions (backend u') = evictions (backend u))
  /\ (keyPrefix u = "" ->
      Cache.clear u = Some (withBackend u (clear (backend u)))).
Proof.
  split.
  - intros W Hne Hp Hkeys. unfold Cache.clear.
    rewrite (truthy_pattern Hne), backend_keys_prefix by assumption.
    eexists. split; [reflexivity|]. split; [reflexivity|].
    destruct (delete_all
                (filter (String.prefix (keyPrefix u))
                   (JsMap.keys (store (backend u)))) (backend u))
      as (I1 & I2 & I3 & I4 & I5 & _).
    cbn zeta in *. cbn [backend withBackend].
    assert (forall k,
              In k (JsMap.keys (store (backend u))) ->
              existsb (String.eqb k)
                (filter (String.prefix (keyPrefix u))
                   (JsMap.keys (store (backend u))))
              = String.prefix (keyPrefix u) k) as Hmem.
    { intros k Hin. destruct (String.prefix (keyPrefix u) k) eqn:P.
      - apply existsb_exists. exists k. split; [|apply String.eqb_refl].
        apply filter_In. tauto.
      - destruct (existsb _ _) eqn:X; [|reflexivity].
        apply existsb_exists in X. destruct X as (k' & Hk' & Ek).
        apply String.eqb_eq in Ek. subst k'. apply filter_In in Hk'.
        destruct Hk' as [_ P']. congruence. }
    assert (store
              (fold_left (fun b key => snd (delete b key))
                 (filter (String.prefix (keyPrefix u))
                    (JsMap.keys (store (backend u)))) (backend u))
            = filter (fun kv => negb (String.prefix (keyPrefix u) (fst kv)))
                (store (backend u))) as Hstore.
    { rewrite I1. apply filter_ext_in. intros kv Hin. f_equal.
      apply Hmem. now apply in_map. }
    split; [exact Hstore|]. split.
    + rewrite I2. apply filter_ext_in. intros [k i] Hin. cbn [fst]. f_equal.
      apply Hmem. apply (in_map fst) in Hin. cbn [fst] in Hin.
      destruct (evictionPolicy (backend u)) eqn:P.
      * now apply (wf_order_lru W P).
      * rewrite (wf_order_fifo W P) in Hin. destruct Hin.
    + split; [|auto]. unfold unitKeys. cbn [backend withBackend keyPrefix].
      rewrite Hstore. now rewrite no_prefixed_left.
  - intros E. unfold Cache.clear. now rewrite E.
Qed.

Lemma sampleUnit_wf : wf (backend sampleUnit).
Proof.
  constructor; simpl.
  - repeat constructor; simpl; intuition discriminate.
  - constructor.
  - discriminate.
  - reflexivity.
Defined.

Lemma unit_clear_removes_own_keys_witness :
  (exists u',
     Cache.clear sampleUnit = Some u'
     /\ keyPrefix u' = keyPrefix sampleUnit
     /\ store (backend u')
        = filter (fun kv => negb (String.prefix (keyPrefix sampleUnit) (fst kv)))
            (store (backend sampleUnit))
     /\ accessOrder (backend u')
        = filter (fun ki => negb (String.prefix (keyPrefix sampleUnit) (fst ki)))
            (accessOrder (backend sampleUnit))
     /\ unitKeys u' = []
     /\ hits (backend u') = hits (backend sampleUnit)
     /\ misses (backend u') = misses (backend sampleUnit)
     /\ evictions (backend u') = evictions (backend sampleUnit))
  /\ Cache.clear (mkProps lruCache "default" "")
     = Some (withBackend (mkProps lruCache "default" "") (clear lruCache)).
Proof.
  split.
  - apply (proj1 (unit_clear_removes_own_keys sampleUnit) sampleUnit_wf).
    + discriminate.
    + reflexivity.
    + repeat constructor.
  - apply (proj2 (unit_clear_removes_own_keys (mkProps lruCache "default" ""))).
    reflexivity.
Defined.




(** A prefix with a glob character in it reaches into other key spaces:
    the unit of prefix [a?] lists, and [clear] would delete, the key [ab1]
    of another unit. *)
Lemma unit_prefix_with_wildcard_leaks :
  Cache.keys (mkProps (tableOf ["a?1"; "ab1"]%list) "default" "a?") None
  = Some ["1"; "1"]%list.
Proof. vm_compute. reflexivity. Qed.

(** * Calls on a cache of any configuration *)

Lemma servable_sub c c' :
  wf c' ->
  (forall kv, In kv (store c') ->
     In kv (store c)
     \/ exists e, In (fst kv, e) (store c) /\ value e = value (snd kv)) ->
  servable c -> servable c'.
Proof.
  intros W' Hsub (W & Hk & Hs). split; [exact W'|]. split.
  - intros Hin. apply in_map_iff in Hin. destruct Hin as (kv & Ek & Hin).
    apply Hk. destruct (Hsub kv Hin) as [H|(e & H & _)].
    + rewrite <- Ek. now apply in_map.
    + rewrite <- Ek. apply (in_map fst (store c) (fst kv, e) H).
  - rewrite Forall_forall in *. intros kv Hin.
    destruct (Hsub kv Hin) as [H|(e & H & Ev)]; [now apply Hs|].
    rewrite <- Ev. apply (Hs (fst kv, e) H).
Qed.

Lemma servable_get c key now :
  servable c ->
  servable (snd (get c key now))
  /\ (List.length (store (snd (get c key now))) <= List.length (store c))%nat.
Proof.
  intros S. pose proof S as (W & _). split.
  - apply (servable_sub (c := c)); [now apply wf_get| |exact S].
    intros kv Hin. unfold get in Hin.
    destruct (JsMap.get (store c) key) as [e|] eqn:G.
    + destruct (isExpired e now); cbn [snd] in Hin.
      * left. simpl in Hin. now apply JsMapFacts.In_delete in Hin.
      * rewrite recordHit_store in Hin. apply JsMapFacts.In_set in Hin.
        destruct Hin as [->|Hin]; [|now left].
        right. exists e. split; [now apply JsMapFacts.get_In|reflexivity].
    + left. exact Hin.
  - unfold get. destruct (JsMap.get (store c) key) as [e|] eqn:G.
    + destruct (isExpired e now); cbn [snd].
      * apply JsMapFacts.length_delete_le.
      * rewrite recordHit_store, JsMapFacts.length_set.
        unfold JsMap.has. rewrite G. lia.
    + simpl. lia.
Qed.

Lemma servable_delete c key :
  servable c ->
  servable (snd (delete c key))
  /\ (List.length (store (snd (delete c key))) <= List.length (store c))%nat.
Proof.
  intros S. pose proof S as (W & _). split.
  - apply (servable_sub (c := c)); [now apply wf_delete| |exact S].
    intros kv Hin. left. unfold delete in Hin. simpl in Hin.
    now apply JsMapFacts.In_delete in Hin.
  - unfold delete. simpl. apply JsMapFacts.length_delete_le.
Qed.

Lemma servable_cleanup c now :
  servable c ->
  servable (snd (cleanup c now))
  /\ (List.length (store (snd (cleanup c now))) <= List.length (store c))%nat.
Proof.
  intros S. pose proof S as (W & _).
  assert (store (snd (cleanup c now))
          = filter
              (fun kv =>
                 negb (existsb (String.eqb (fst kv))
                         (JsMap.keys (filter (expiredAt now) (store c)))))
              (store c)) as Hs.
  { unfold cleanup.
    destruct (cleanup_fold now (store c) (0, c)) as (_ & I2 & _).
    exact I2. }
  split.
  - apply (servable_sub (c := c)); [now apply wf_cleanup| |exact S].
    intros kv Hin. left. rewrite Hs in Hin. now apply filter_In in Hin.
  - rewrite Hs. apply filter_length_le.
Qed.

Lemma servable_clear c : servable (clear c).
Proof.
  split; [apply wf_clear|]. split; simpl; [tauto|constructor].
Qed.

(** On a servable cache a [set] of a non-empty key and a sizable value
    returns, whatever the capacity and the memory limit are, and leaves a
    servable cache with at most one entry more. *)
Lemma servable_set fuel c key v lifetime now :
  servable c -> key <> "" -> serializable v ->
  (List.length (store c) < fuel)%nat ->
  exists c',
    set fuel c key v lifetime now = Returned c'
    /\ servable c'
    /\ (List.length (store c') <= S (List.length (store c)))%nat.
Proof.
  intros (W & Hk & Hs) Hkey Hv Hfuel.
  pose proof (wf_insert key v lifetime now W) as Wi.
  destruct (insert_config c key v lifetime now) as (_ & Emem & _).
  assert (servable (insert c key v lifetime now)) as Si.
  { split; [exact Wi|]. split.
    - intros Hin. apply insert_keys in Hin.
      destruct Hin; [congruence|contradiction].
    - apply Forall_forall. intros kv Hin. apply insert_entries in Hin.
      destruct Hin as [->|Hin]; [exact Hv|].
      revert kv Hin. now apply Forall_forall. }
  destruct Si as (_ & Hk' & Hs').
  destruct (sumBytes_some 0 Hs') as [m Hm].
  unfold set, checkMemoryLimits, estimateMemoryUsage. rewrite Hm.
  pose proof (insert_length c key v lifetime now) as Hlen.
  destruct (Z.le_gt_cases m (maxMemory c)) as [Hle|Hgt].
  - exists (insert c key v lifetime now).
    rewrite evictWhileOver_under by (now rewrite Emem).
    split; [reflexivity|]. split; [|exact Hlen].
    split; [exact Wi|split; assumption].
  - destruct (@evictWhileOver_drains fuel m (insert c key v lifetime now) Wi Hk')
      as (c' & R & Hempty & W' & _); [now rewrite Emem|lia|].
    exists c'. split; [exact R|]. rewrite Hempty. split; [|simpl; lia].
    split; [exact W'|]. rewrite Hempty. split; simpl; [tauto|constructor].
Qed.

Lemma runOps_returns ops : forall fuel c,
  servable c -> Forall plainCall ops ->
  (List.length (store c) + List.length ops <= fuel)%nat ->
  exists c', runOps fuel ops c = Returned c' /\ servable c'.
Proof.
  induction ops as [|op ops IH]; intros fuel c Hsv Hops Hfuel.
  - exists c. now split.
  - inversion Hops as [|? ? Hop Hops']; subst. simpl List.length in Hfuel.
    assert (exists c1,
              runOp fuel c op = Returned c1 /\ servable c1
              /\ (List.length (store c1) <= S (List.length (store c)))%nat)
      as (c1 & E1 & Hsv1 & L1).
    { destruct op as [key v lifetime now|key now|key now|key| |now]; simpl.
      - destruct Hop as [Hkey Hv]. apply servable_set; auto. lia.
      - destruct (servable_get key now Hsv) as [S1 L1].
        exists (snd (get c key now)).
        split; [reflexivity|]. split; [exact S1|lia].
      - destruct (servable_get key now Hsv) as [S1 L1].
        exists (snd (get c key now)).
        split; [reflexivity|]. split; [exact S1|lia].
      - destruct (servable_delete key Hsv) as [S1 L1].
        exists (snd (delete c key)).
        split; [reflexivity|]. split; [exact S1|lia].
      - exists (clear c). split; [reflexivity|].
        split; [apply servable_clear|unfold clear; simpl; lia].
      - destruct (servable_cleanup now Hsv) as [S1 L1].
        exists (snd (cleanup c now)).
        split; [reflexivity|]. split; [exact S1|lia]. }
    destruct (IH fuel c1 Hsv1 Hops') as (c' & E & Hsv'); [lia|].
    exists c'. simpl. rewrite E1. simpl. now split.
Qed.

Lemma keys_returns c pattern : exists ks, keys c pattern = Some ks.
Proof.
  destruct pattern as [pattern|]; unfold keys; [|eauto].
  rewrite globToRegex_compiles. destruct (truthy pattern); eauto.
Qed.

(** C4 (as the code has it): the constructor raises for no configuration;
    it stores what it is given, a negative [maxSize] included, and falls
    back on the defaults for what is absent.  Nor do the later calls raise
    on account of the configuration: on the cache so constructed, whatever
    the configuration is, every run of [set], [get], [has], [delete],
    [clear] and [cleanup] calls whose [set] calls bring in neither the empty
    key nor a value that cannot be sized returns, and [keys] then returns
    for every pattern. *)
Theorem constructor_accepts_any_config config :
  exists c0,
    constructor config = Returned c0
    /\ maxSize c0 = cfg_maxSize config ?? 1000
    /\ maxMemory c0 = cfg_maxMemory config ?? 104857600
    /\ defaultTTL c0 = cfg_defaultTTL config ?? 3600000
    /\ evictionPolicy c0 = cfg_evictionPolicy config ?? lru
    /\ store c0 = [] /\ accessOrder c0 = [] /\ nextAccessTime c0 = 1
    /\ hits c0 = 0 /\ misses c0 = 0 /\ evictions c0 = 0
    /\ forall fuel ops,
         Forall plainCall ops ->
         (List.length ops <= fuel)%nat ->
         exists c,
           runOps fuel ops c0 = Returned c
           /\ maxSize c = cfg_maxSize config ?? 1000
           /\ maxMemory c = cfg_maxMemory config ?? 104857600
           /\ forall pattern, exists ks, keys c pattern = Some ks.
Proof.
  eexists. split; [reflexivity|]. do 10 (split; [reflexivity|]).
  intros fuel ops Hops Hfuel.
  match goal with
  | |- exists c, runOps _ _ ?x = _ /\ _ => set (c0 := x)
  end.
  assert (wf c0) as W0 by (apply (@wf_constructor config); reflexivity).
  assert (orderFresh c0) as F0 by (apply (@constructor_fresh config); reflexivity).
  assert (servable c0) as S0.
  { split; [exact W0|]. split; simpl; [tauto|constructor]. }
  destruct (@runOps_returns ops fuel c0 S0 Hops) as (c & E & Hsv); [simpl; lia|].
  exists c. split; [exact E|].
  apply runOps_keeps in E; [|exact W0|exact F0].
  destruct E as (_ & _ & M1 & M2 & _).
  split; [exact M1|]. split; [exact M2|]. intros pattern. apply keys_returns.
Qed.

Lemma constructor_accepts_any_config_witness :
  exists c0,
    constructor negativeConfig = Returned c0
    /\ maxSize c0 = -1 /\ maxMemory c0 = -5
    /\ exists c,
         runOps 7 negativeOps c0 = Returned c
         /\ maxSize c = -1 /\ maxMemory c = -5
         /\ forall pattern, exists ks, keys c pattern = Some ks.
Proof.
  destruct (constructor_accepts_any_config negativeConfig)
    as (c0 & E & M1 & M2 & _ & _ & _ & _ & _ & _ & _ & _ & H).
  exists c0. split; [exact E|]. split; [exact M1|]. split; [exact M2|].
  apply (H 7%nat negativeOps).
  - unfold negativeOps. repeat constructor; discriminate.
  - simpl. lia.
Defined.

(** * Entries set with a TTL of zero or below *)



